(** * Collection: an ordered map with array-like utility methods

    A shallow embedding of [Collection<K, V> extends Map<K, V>] and of the
    pieces of the ECMAScript runtime its methods call ([Map], [Array],
    [Math], numbers), followed by theorems about its methods.  The class
    comes in two variants: the one without caches ([Collection]), and the one
    that caches the arrays of its values and of its keys ([Cached]).

    - Numbers are IEEE doubles in the source; the finite ones are modelled as
      rationals ([Q]), next to [NaN] and the two infinities.  [-0] is
      identified with [+0]: no modelled operation tells them apart.  Sizes
      and lengths are exact up to [2^53 - 1], as far as doubles count.
    - A [Map] is its [[MapData]] list of ECMA-262: a list of slots, a slot
      being an entry or empty; [delete] and [clear] empty slots, [set]
      updates in place or appends, and an iterator is an index into the list.
      Keys are compared with a decidable equality (SameValueZero), values
      with a strict equality [===] that need not be reflexive ([NaN]).
    - Methods that mutate their receiver return its new state; where object
      identity matters (clone, equals, sort, sorted) the receivers live in a
      heap.
    - Callbacks are functions that may read the collection they are handed
      and thread a state of their own, so that calls can be counted and
      ordered.  [Math.random()] is a stream of numbers.
*)

From Stdlib Require Import ZArith QArith Qround String Permutation Sorted.
From stdpp Require Import base option list sorting strings gmap.

Close Scope Q_scope.
Open Scope nat_scope.

(* ================================================================== *)
(** ** Numbers *)

Inductive number : Type :=
  | NaN
  | PosInf
  | NegInf
  | Fin (q : Q).

Definition of_Z (z : Z) : number := Fin (inject_Z z).
Definition of_nat (n : nat) : number := of_Z (Z.of_nat n).

(** [x < y]; any comparison with [NaN] is false. *)
Definition num_lt (x y : number) : bool :=
  match x, y with
  | NaN, _ | _, NaN => false
  | PosInf, _ => false
  | _, NegInf => false
  | NegInf, _ => true
  | Fin _, PosInf => true
  | Fin a, Fin b => negb (Qle_bool b a)
  end.

(** [!x] for a number: [0] and [NaN] are the falsy numbers. *)
Definition num_falsy (x : number) : bool :=
  match x with
  | NaN => true
  | Fin q => Qeq_bool q 0
  | _ => false
  end.

(** Unary minus. *)
Definition num_neg (x : number) : number :=
  match x with
  | NaN => NaN
  | PosInf => NegInf
  | NegInf => PosInf
  | Fin q => Fin (- q)%Q
  end.

(** The sign of a number that is not [NaN], as a comparison with zero. *)
Definition num_sign (x : number) : comparison :=
  match x with
  | NaN => Eq
  | PosInf => Gt
  | NegInf => Lt
  | Fin q => (q ?= 0)%Q
  end.

(** [x * y].  An infinity times zero is [NaN]. *)
Definition num_mul (x y : number) : number :=
  match x, y with
  | NaN, _ | _, NaN => NaN
  | Fin a, Fin b => Fin (a * b)%Q
  | _, _ =>
      match num_sign x, num_sign y with
      | Eq, _ | _, Eq => NaN
      | Lt, Lt | Gt, Gt => PosInf
      | _, _ => NegInf
      end
  end.

(** Strict equality [===] on numbers: [NaN] differs from itself. *)
Definition num_strict_eq (x y : number) : bool :=
  match x, y with
  | NaN, _ | _, NaN => false
  | PosInf, PosInf | NegInf, NegInf => true
  | Fin a, Fin b => Qeq_bool a b
  | _, _ => false
  end.

Definition Math_floor (x : number) : number :=
  match x with
  | Fin q => of_Z (Qfloor q)
  | _ => x
  end.

(** [Math.min(x, y)]: [NaN] if either argument is. *)
Definition Math_min (x y : number) : number :=
  match x, y with
  | NaN, _ | _, NaN => NaN
  | _, _ => if num_lt y x then y else x
  end.

(** Integers extended with the two infinities, the range of
    [ToIntegerOrInfinity]. *)
Inductive ext_int : Type :=
  | Int (z : Z)
  | PInf
  | NInf.

(** Rounding toward zero. *)
Definition Qtrunc (q : Q) : Z :=
  if Qle_bool 0 q then Qfloor q else Qceiling q.

Definition ToIntegerOrInfinity (x : number) : ext_int :=
  match x with
  | NaN => Int 0
  | PosInf => PInf
  | NegInf => NInf
  | Fin q => Int (Qtrunc q)
  end.

(** [ToLength]: clamps to [0 .. 2^53 - 1]. *)
Definition ToLength (x : number) : nat :=
  match ToIntegerOrInfinity x with
  | Int z => Z.to_nat (Z.min z (2 ^ 53 - 1))
  | PInf => Z.to_nat (2 ^ 53 - 1)
  | NInf => 0
  end.

(* ================================================================== *)
(** ** Arrays *)

Section Arrays.
Context {A : Type}.

(** [arr[i]] for a number [i]: an element only at an integer index within
    bounds, [undefined] otherwise. *)
Definition Array_get (i : number) (arr : list A) : option A :=
  match i with
  | Fin q =>
      if Qeq_bool q (inject_Z (Qfloor q)) && (0 <=? Qfloor q)%Z
      then arr !! Z.to_nat (Qfloor q)
      else None
  | _ => None
  end.

(** [Array.prototype.at]. *)
Definition Array_at (index : number) (arr : list A) : option A :=
  match ToIntegerOrInfinity index with
  | Int relativeIndex =>
      let len := Z.of_nat (length arr) in
      let k := if (0 <=? relativeIndex)%Z then relativeIndex
               else (len + relativeIndex)%Z in
      if (k <? 0)%Z || (len <=? k)%Z then None else arr !! Z.to_nat k
  | _ => None
  end.

(** The position a relative start index denotes in an array of [len]
    elements ([slice] and [splice] share it). *)
Definition relative_start (start : number) (len : nat) : nat :=
  match ToIntegerOrInfinity start with
  | NInf => 0
  | PInf => len
  | Int relativeStart =>
      if (relativeStart <? 0)%Z
      then Z.to_nat (Z.max (Z.of_nat len + relativeStart) 0)
      else Z.to_nat (Z.min relativeStart (Z.of_nat len))
  end.

(** [arr.slice(start)]. *)
Definition Array_slice (start : number) (arr : list A) : list A :=
  drop (relative_start start (length arr)) arr.

(** [arr.splice(start, deleteCount)]: the removed elements and what is left
    of [arr]. *)
Definition Array_splice (start deleteCount : number) (arr : list A)
  : list A * list A :=
  let len := length arr in
  let actualStart := relative_start start len in
  let dc := match ToIntegerOrInfinity deleteCount with
            | Int z => Z.to_nat (Z.max z 0)
            | PInf => len
            | NInf => 0
            end in
  let actualDeleteCount := Nat.min dc (len - actualStart) in
  (take actualDeleteCount (drop actualStart arr),
   take actualStart arr ++ drop (actualStart + actualDeleteCount) arr).

(** [Array.from({ length }, mapFn)] for a [mapFn] that ignores its arguments
    and works on a state [St]: it is called [ToLength(length)] times, in
    order. *)
Fixpoint Array_from_loop {St B : Type} (n : nat) (mapFn : St -> B * St)
    (st : St) : list B * St :=
  match n with
  | 0 => ([], st)
  | S n' =>
      let '(x, st1) := mapFn st in
      let '(xs, st2) := Array_from_loop n' mapFn st1 in
      (x :: xs, st2)
  end.

Definition Array_from {St B : Type} (len : number) (mapFn : St -> B * St)
    (st : St) : list B * St :=
  Array_from_loop (ToLength len) mapFn st.

(** An iterator over a sequence that is not mutated meanwhile: the items
    still to come.  [next] is [iter.next().value]. *)
Definition next (iter : list A) : option A * list A :=
  match iter with
  | [] => (None, [])
  | x :: iter' => (Some x, iter')
  end.
End Arrays.

(** [Array.prototype.sort] with a comparator, of which only the sign of the
    result is used.  ECMAScript 2019 requires a stable sort; for a consistent
    comparator every stable sort returns this list (insertion sort from the
    left, each element placed after the elements that do not compare greater
    than it). *)
Section ArraySort.
Context {A : Type} (comparefn : A -> A -> Z).

Fixpoint sort_insert (x : A) (sorted : list A) : list A :=
  match sorted with
  | [] => [x]
  | y :: rest =>
      if (0 <? comparefn y x)%Z then x :: y :: rest
      else y :: sort_insert x rest
  end.

Definition Array_sort (arr : list A) : list A :=
  fold_left (fun sorted x => sort_insert x sorted) arr [].

(** In sorted order no element compares greater than the next one. *)
Definition in_order (a b : A) : Prop := (comparefn a b <= 0)%Z.

(** The least a comparator has to do: not say both that [a] comes after
    [b] and that [b] comes after [a]. *)
Definition consistent : Prop :=
  forall a b, (0 < comparefn a b)%Z -> (comparefn b a <= 0)%Z.
End ArraySort.

(* ================================================================== *)
(** ** Map *)

(** [[MapData]]: the slots of a map, in insertion order; [None] is a slot
    whose entry was deleted. *)
Abbreviation MapData K V := (list (option (K * V))).

Section ESMap.
Context {K V : Type} `{EqDecision K}.

Fixpoint Map_has (key : K) (M : MapData K V) : bool :=
  match M with
  | [] => false
  | Some (k, _) :: M' => if decide (k = key) then true else Map_has key M'
  | None :: M' => Map_has key M'
  end.

Fixpoint Map_get (key : K) (M : MapData K V) : option V :=
  match M with
  | [] => None
  | Some (k, v) :: M' => if decide (k = key) then Some v else Map_get key M'
  | None :: M' => Map_get key M'
  end.

(** [set]: the value of an existing key is replaced in its slot, a new key
    gets a new slot at the end. *)
Fixpoint Map_set (key : K) (value : V) (M : MapData K V) : MapData K V :=
  match M with
  | [] => [Some (key, value)]
  | Some (k, v) :: M' =>
      if decide (k = key) then Some (k, value) :: M'
      else Some (k, v) :: Map_set key value M'
  | None :: M' => None :: Map_set key value M'
  end.

(** [delete]: the slot of the key is emptied, not removed; the result says
    whether there was one. *)
Fixpoint Map_delete (key : K) (M : MapData K V) : bool * MapData K V :=
  match M with
  | [] => (false, [])
  | Some (k, v) :: M' =>
      if decide (k = key) then (true, None :: M')
      else let '(b, M1) := Map_delete key M' in (b, Some (k, v) :: M1)
  | None :: M' => let '(b, M1) := Map_delete key M' in (b, None :: M1)
  end.

(** [clear] empties every slot. *)
Definition Map_clear (M : MapData K V) : MapData K V :=
  (fun _ => None) <$> M.

(** What an iterator started on [M] yields when [M] is not mutated
    meanwhile: the entries of the non-empty slots, in order. *)
Definition Map_entries (M : MapData K V) : list (K * V) := omap id M.
Definition Map_keys (M : MapData K V) : list K := fst <$> Map_entries M.
Definition Map_values (M : MapData K V) : list V := snd <$> Map_entries M.

Definition Map_size (M : MapData K V) : nat := length (Map_entries M).

(** [new Map(iterable)]: [set] is called on a fresh map for each pair. *)
Definition Map_new (iterable : list (K * V)) : MapData K V :=
  fold_left (fun M e => Map_set e.1 e.2 M) iterable [].

(** The invariant of a map: no two slots hold the same key. *)
Definition keys_unique (M : MapData K V) : Prop := NoDup (Map_keys M).
End ESMap.

(* ================================================================== *)
(** ** Results and callbacks

    A callback is a function of its arguments and of a state of its own,
    which it returns updated; it is handed the collection but cannot change
    it.  The optional [thisArg] of the source only binds [this] inside the
    callback and has no counterpart here. *)

(** An exception.  The methods below throw nothing else. *)
Inductive error : Type :=
  | TypeError (message : string).

(** How a call completes: with a value, or by throwing to its caller. *)
Inductive completion (T : Type) : Type :=
  | Return (value : T)
  | Throw (e : error).
Arguments Return {T} value.
Arguments Throw {T} e.

(** The result of a method that returns one item ([undefined] when there is
    none) or an array of items, depending on its arguments.  An array slot
    can read [undefined] too, where the source fills it from an iterator or a
    [splice] that may have nothing left. *)
Inductive one_or_many (A : Type) : Type :=
  | One (x : option A)
  | Many (xs : list (option A)).
Arguments One {A} x.
Arguments Many {A} xs.

(** The successive results of [Math.random()], with the number of calls made
    so far. *)
Record random_source : Type := RandomSource {
  draws : nat -> Q;
  calls : nat
}.

(** [Math.floor(Math.random() * len)]. *)
Definition random_index (len : nat) (rs : random_source) : number * random_source :=
  (Math_floor (num_mul (Fin (draws rs (calls rs))) (of_nat len)),
   RandomSource (draws rs) (S (calls rs))).

(* ================================================================== *)
(** ** Collection *)

Module Collection.
Section Methods.
Context {K V : Type} `{EqDecision K}.

(** *** ensure *)
Definition ensure {St : Type} (key : K)
    (defaultValueGenerator : K -> MapData K V -> St -> V * St)
    (this : MapData K V) (st : St) : option V * MapData K V * St :=
  if Map_has key this then (Map_get key this, this, st)
  else
    let '(defaultValue, st') := defaultValueGenerator key this st in
    (Some defaultValue, Map_set key defaultValue this, st').

(** *** first, last and their key variants

    [first]/[firstKey] and [last]/[lastKey] differ only in the sequence
    they read, [this.values()] or [this.keys()]: [items] below.  [first]
    and [last] call each other on a negative amount; [first_body] and
    [last_body] are the two function bodies, with that call a parameter. *)
Section FirstLast.
Context {A : Type}.

Definition first_body (last_ : number -> one_or_many A)
    (items : list A) (size : nat) (amount : option number) : one_or_many A :=
  match amount with
  | None => One (next items).1
  | Some amount =>
      if num_lt amount (of_Z 0) then last_ (num_mul amount (of_Z (-1)))
      else
        let amount := Math_min (of_nat size) amount in
        let iter := items in
        Many (Array_from amount next iter).1
  end.

Definition last_body (first_ : number -> one_or_many A)
    (items : list A) (amount : option number) : one_or_many A :=
  let arr := items in
  match amount with
  | None => One (Array_get (of_Z (Z.of_nat (length arr) - 1)) arr)
  | Some amount =>
      if num_lt amount (of_Z 0) then first_ (num_mul amount (of_Z (-1)))
      else if num_falsy amount then Many []
      else Many (Some <$> Array_slice (num_neg amount) arr)
  end.

(** The amount handed over is not negative, so the callee does not call
    back: the recursion is cut after one round (lemmas [first_of_eq]
    and [last_of_eq] give back the equations of the source). *)
Definition first_of (items : list A) (size : nat) (amount : option number)
  : one_or_many A :=
  first_body
    (fun a => last_body (fun _ => Many []) items (Some a))
    items size amount.

Definition last_of (items : list A) (size : nat) (amount : option number)
  : one_or_many A :=
  last_body (fun a => first_of items size (Some a)) items amount.
End FirstLast.

Definition first (amount : option number) (this : MapData K V) :=
  first_of (Map_values this) (Map_size this) amount.
Definition firstKey (amount : option number) (this : MapData K V) :=
  first_of (Map_keys this) (Map_size this) amount.
Definition last (amount : option number) (this : MapData K V) :=
  last_of (Map_values this) (Map_size this) amount.
Definition lastKey (amount : option number) (this : MapData K V) :=
  last_of (Map_keys this) (Map_size this) amount.

(** *** at, keyAt *)
Definition at_ (index : number) (this : MapData K V) : option V :=
  let index := Math_floor index in
  let arr := Map_values this in
  Array_at index arr.

Definition keyAt (index : number) (this : MapData K V) : option K :=
  let index := Math_floor index in
  let arr := Map_keys this in
  Array_at index arr.

(** *** random, randomKey *)
Section Random.
Context {A : Type}.

(** [arr.splice(Math.floor(Math.random() * arr.length), 1)[0]], on the
    array and the random source. *)
Definition random_pick (st : list A * random_source)
  : option A * (list A * random_source) :=
  let '(arr, rs) := st in
  let '(i, rs') := random_index (length arr) rs in
  let '(removed, arr') := Array_splice i (of_Z 1) arr in
  (removed !! 0, (arr', rs')).

Definition random_of (items : list A) (amount : option number)
    (rs : random_source) : one_or_many A * random_source :=
  let arr := items in
  match amount with
  | None =>
      let '(i, rs') := random_index (length arr) rs in
      (One (Array_get i arr), rs')
  | Some amount =>
      if (length arr =? 0) || num_falsy amount then (Many [], rs)
      else
        let '(xs, (_, rs')) :=
          Array_from (Math_min amount (of_nat (length arr)))
            random_pick (arr, rs) in
        (Many xs, rs')
  end.
End Random.

Definition random (amount : option number) (this : MapData K V)
    (rs : random_source) :=
  random_of (Map_values this) amount rs.
Definition randomKey (amount : option number) (this : MapData K V)
    (rs : random_source) :=
  random_of (Map_keys this) amount rs.

(** *** sweep

    [for (const [key, val] of this) if (fn(val, key, this)) this.delete(key)]
    runs a map iterator on [this] while [this] is mutated: the iterator is
    the index of the next slot of the live [[MapData]], empty slots are
    passed over, and it is done when the index reaches the end.  [fn]
    cannot add slots here, so [length this] steps reach the end (lemma
    [sweep_loop_fuel]). *)
Fixpoint sweep_loop {St : Type} (fn : V -> K -> MapData K V -> St -> bool * St)
    (fuel index : nat) (this : MapData K V) (st : St) : MapData K V * St :=
  match fuel with
  | 0 => (this, st)
  | S fuel' =>
      match this !! index with
      | None => (this, st)
      | Some None => sweep_loop fn fuel' (S index) this st
      | Some (Some (key, val)) =>
          let '(b, st') := fn val key this st in
          if b then sweep_loop fn fuel' (S index) (Map_delete key this).2 st'
          else sweep_loop fn fuel' (S index) this st'
      end
  end.

Definition sweep {St : Type} (fn : V -> K -> MapData K V -> St -> bool * St)
    (this : MapData K V) (st : St) : Z * MapData K V * St :=
  let previousSize := Map_size this in
  let '(this', st') := sweep_loop fn (length this) 0 this st in
  ((Z.of_nat previousSize - Z.of_nat (Map_size this'))%Z, this', st').

(** *** reduce

    [initialValue] is [None] when [typeof initialValue === 'undefined'].
    [cast] is the unchecked [val as unknown as T], the identity at run
    time.  The loop without initial value keeps [first] and [accumulator];
    [accumulator] is assigned exactly when [first] is false, so the pair is
    an option: [None] is [first = true]. *)
Definition empty_reduce_message : string :=
  "Reduce of empty collection with no initial value".

Definition reduce {T : Type} (cast : V -> T)
    (fn : T -> V -> K -> MapData K V -> T) (initialValue : option T)
    (this : MapData K V) : completion T :=
  match initialValue with
  | Some initialValue =>
      let accumulator := initialValue in
      Return (fold_left (fun accumulator e => fn accumulator e.2 e.1 this)
                (Map_entries this) accumulator)
  | None =>
      let accumulator :=
        fold_left
          (fun accumulator e =>
             match accumulator with
             | None => Some (cast e.2)
             | Some accumulator => Some (fn accumulator e.2 e.1 this)
             end)
          (Map_entries this) None in
      match accumulator with
      | None => Throw (TypeError empty_reduce_message)
      | Some accumulator => Return accumulator
      end
  end.

(** *** clone: the contents of the new collection *)
Definition clone (this : MapData K V) : MapData K V :=
  Map_new (Map_entries this).

(** *** equals, past the tests on the argument itself ([!collection],
    [this === collection]), which are about references: see [Heap.equals].
    [strict_eq] is [===] on values; [collection.get(key)] may be
    [undefined], which no value is strictly equal to. *)
Definition strict_neq_get (strict_eq : V -> V -> bool) (value : V)
    (got : option V) : bool :=
  match got with
  | Some v => negb (strict_eq value v)
  | None => true
  end.

Definition equals (strict_eq : V -> V -> bool)
    (this collection : MapData K V) : bool :=
  if negb (Map_size this =? Map_size collection) then false
  else
    forallb
      (fun e =>
         negb (negb (Map_has e.1 collection)
               || strict_neq_get strict_eq e.2 (Map_get e.1 collection)))
      (Map_entries this).

(** *** sort: the receiver after the call

    A comparator returns a number of which [Array.prototype.sort] uses the
    sign: an integer here.  [defaultSort] is the comparator used when none
    is given, [gt] and [strict_eq] being [>] and [===] on values. *)
Definition defaultSort (gt strict_eq : V -> V -> bool)
    (firstValue secondValue : V) (_ _ : K) : Z :=
  if gt firstValue secondValue then 1%Z
  else ((if strict_eq firstValue secondValue then 1 else 0) - 1)%Z.

(** [(a, b) => compareFunction(a[1], b[1], a[0], b[0])]. *)
Definition on_entries (compareFunction : V -> V -> K -> K -> Z)
    (a b : K * V) : Z :=
  compareFunction a.2 b.2 a.1 b.1.

Definition sort (compareFunction : V -> V -> K -> K -> Z)
    (this : MapData K V) : MapData K V :=
  let entries := Map_entries this in
  let entries := Array_sort (on_entries compareFunction) entries in
  let this := Map_clear this in
  fold_left (fun this e => Map_set e.1 e.2 this) entries this.

(** *** intersect, difference: the contents of the new collection *)
Definition intersect (this other : MapData K V) : MapData K V :=
  let coll := [] in
  fold_left (fun coll e => if Map_has e.1 this then Map_set e.1 e.2 coll else coll)
    (Map_entries other) coll.

Definition difference (this other : MapData K V) : MapData K V :=
  let coll := [] in
  let coll :=
    fold_left
      (fun coll e => if negb (Map_has e.1 this) then Map_set e.1 e.2 coll else coll)
      (Map_entries other) coll in
  fold_left
    (fun coll e => if negb (Map_has e.1 other) then Map_set e.1 e.2 coll else coll)
    (Map_entries this) coll.

(** *** sorted: the contents of the new collection *)
Definition sorted (compareFunction : V -> V -> K -> K -> Z)
    (this : MapData K V) : MapData K V :=
  sort (fun av bv ak bk => compareFunction av bv ak bk) (clone this).
(** *** hasAll, hasAny *)
Definition hasAll (keys : list K) (this : MapData K V) : bool :=
  forallb (fun k => Map_has k this) keys.

Definition hasAny (keys : list K) (this : MapData K V) : bool :=
  existsb (fun k => Map_has k this) keys.

(** *** reverse: the receiver after the call *)
Definition reverse (this : MapData K V) : MapData K V :=
  let entries := rev (Map_entries this) in
  let this := Map_clear this in
  fold_left (fun this e => Map_set e.1 e.2 this) entries this.

(** *** find, findKey, some, every

    Loops over [this] that return at the first entry that decides the
    answer.  The callback does not change the collection, so the iterator
    yields [Map_entries this]: [iter] is what it has still to yield. *)
Fixpoint find_loop {St : Type} (fn : V -> K -> MapData K V -> St -> bool * St)
    (this : MapData K V) (iter : list (K * V)) (st : St) : option V * St :=
  match iter with
  | [] => (None, st)
  | (key, val) :: iter' =>
      let '(b, st') := fn val key this st in
      if b then (Some val, st') else find_loop fn this iter' st'
  end.

Definition find {St : Type} (fn : V -> K -> MapData K V -> St -> bool * St)
    (this : MapData K V) (st : St) : option V * St :=
  find_loop fn this (Map_entries this) st.

Fixpoint findKey_loop {St : Type} (fn : V -> K -> MapData K V -> St -> bool * St)
    (this : MapData K V) (iter : list (K * V)) (st : St) : option K * St :=
  match iter with
  | [] => (None, st)
  | (key, val) :: iter' =>
      let '(b, st') := fn val key this st in
      if b then (Some key, st') else findKey_loop fn this iter' st'
  end.

Definition findKey {St : Type} (fn : V -> K -> MapData K V -> St -> bool * St)
    (this : MapData K V) (st : St) : option K * St :=
  findKey_loop fn this (Map_entries this) st.

Fixpoint some_loop {St : Type} (fn : V -> K -> MapData K V -> St -> bool * St)
    (this : MapData K V) (iter : list (K * V)) (st : St) : bool * St :=
  match iter with
  | [] => (false, st)
  | (key, val) :: iter' =>
      let '(b, st') := fn val key this st in
      if b then (true, st') else some_loop fn this iter' st'
  end.

Definition some {St : Type} (fn : V -> K -> MapData K V -> St -> bool * St)
    (this : MapData K V) (st : St) : bool * St :=
  some_loop fn this (Map_entries this) st.

Fixpoint every_loop {St : Type} (fn : V -> K -> MapData K V -> St -> bool * St)
    (this : MapData K V) (iter : list (K * V)) (st : St) : bool * St :=
  match iter with
  | [] => (true, st)
  | (key, val) :: iter' =>
      let '(b, st') := fn val key this st in
      if negb b then (false, st') else every_loop fn this iter' st'
  end.

Definition every {St : Type} (fn : V -> K -> MapData K V -> St -> bool * St)
    (this : MapData K V) (st : St) : bool * St :=
  every_loop fn this (Map_entries this) st.

(** *** filter, partition: the contents of the new collections *)
Definition filter {St : Type} (fn : V -> K -> MapData K V -> St -> bool * St)
    (this : MapData K V) (st : St) : MapData K V * St :=
  let results := [] in
  fold_left
    (fun '(results, st) e =>
       let '(b, st') := fn e.2 e.1 this st in
       (if b then Map_set e.1 e.2 results else results, st'))
    (Map_entries this) (results, st).

Definition partition {St : Type} (fn : V -> K -> MapData K V -> St -> bool * St)
    (this : MapData K V) (st : St) : (MapData K V * MapData K V) * St :=
  let results := ([], []) in
  fold_left
    (fun '(results, st) e =>
       let '(b, st') := fn e.2 e.1 this st in
       (if b then (Map_set e.1 e.2 results.1, results.2)
        else (results.1, Map_set e.1 e.2 results.2), st'))
    (Map_entries this) (results, st).

(** *** map

    [Array.from({ length: this.size }, () => { const [key, value] =
    iter.next().value; return fn(value, key, this); })]: a call with the
    iterator exhausted would throw, on destructuring [undefined]. *)
Definition map_next {St T : Type} (fn : V -> K -> MapData K V -> St -> T * St)
    (this : MapData K V) (st : list (K * V) * St)
  : completion T * (list (K * V) * St) :=
  let '(iter, s) := st in
  match next iter with
  | (Some (key, value), iter') =>
      let '(y, s') := fn value key this s in (Return y, (iter', s'))
  | (None, iter') => (Throw (TypeError "undefined is not iterable"), (iter', s))
  end.

(** An array whose construction threw at some element is not returned: the
    first exception is. *)
Fixpoint all_returned {T : Type} (xs : list (completion T))
  : completion (list T) :=
  match xs with
  | [] => Return []
  | Throw e :: _ => Throw e
  | Return x :: xs' =>
      match all_returned xs' with
      | Return ys => Return (x :: ys)
      | Throw e => Throw e
      end
  end.

Definition map {St T : Type} (fn : V -> K -> MapData K V -> St -> T * St)
    (this : MapData K V) (st : St) : completion (list T) * St :=
  let iter := Map_entries this in
  let '(xs, (_, st')) :=
    Array_from (of_nat (Map_size this)) (map_next fn this) (iter, st) in
  (all_returned xs, st').

(** *** concat: the contents of the new collection *)
Definition concat (collections : list (MapData K V)) (this : MapData K V)
  : MapData K V :=
  let newColl := clone this in
  fold_left
    (fun newColl coll =>
       fold_left (fun newColl e => Map_set e.1 e.2 newColl)
         (Map_entries coll) newColl)
    collections newColl.

(** *** toJSON *)
Definition toJSON (this : MapData K V) : list V := Map_values this.
End Methods.

Section Transforms.
Context {K V T St : Type} `{EqDecision K}.

(** *** mapValues: the contents of the new collection *)
Definition mapValues (fn : V -> K -> MapData K V -> St -> T * St)
    (this : MapData K V) (st : St) : MapData K T * St :=
  let coll := [] in
  fold_left
    (fun '(coll, st) e =>
       let '(y, st') := fn e.2 e.1 this st in (Map_set e.1 y coll, st'))
    (Map_entries this) (coll, st).

(** *** flatMap: [new this.constructor[Symbol.species]().concat(...this.map(fn))] *)
Definition flatMap (fn : V -> K -> MapData K V -> St -> MapData K T * St)
    (this : MapData K V) (st : St) : completion (MapData K T) * St :=
  let '(collections, st') := map fn this st in
  match collections with
  | Return collections => (Return (concat collections []), st')
  | Throw e => (Throw e, st')
  end.
End Transforms.
End Collection.

(* ================================================================== *)
(** ** Collections as objects

    A heap of collections, for the methods whose contract is about which
    object is returned or mutated.  A method is [None] only on a reference
    that is not in the heap. *)

Module Heap.
Section Objects.
Context {K V : Type} `{EqDecision K}.

Abbreviation ref := nat.
Abbreviation heap := (gmap nat (MapData K V)).

(** [new this.constructor[Symbol.species](...)]: a reference not in use. *)
Definition alloc (M : MapData K V) (h : heap) : ref * heap :=
  let r := fresh (dom h) in (r, <[r := M]> h).

Definition set (this : ref) (key : K) (value : V) (h : heap)
  : option (ref * heap) :=
  M ← h !! this; Some (this, <[this := Map_set key value M]> h).

Definition delete (this : ref) (key : K) (h : heap) : option (bool * heap) :=
  M ← h !! this;
  let '(b, M') := Map_delete key M in Some (b, <[this := M']> h).

Definition clone (this : ref) (h : heap) : option (ref * heap) :=
  M ← h !! this; Some (alloc (Collection.clone M) h).

(** [collection] is [None] for [null] or [undefined]. *)
Definition equals (strict_eq : V -> V -> bool) (this : ref)
    (collection : option ref) (h : heap) : option bool :=
  M ← h !! this;
  match collection with
  | None => Some false
  | Some collection =>
      if decide (this = collection) then Some true
      else M' ← h !! collection; Some (Collection.equals strict_eq M M')
  end.

Definition sort (compareFunction : V -> V -> K -> K -> Z) (this : ref)
    (h : heap) : option (ref * heap) :=
  M ← h !! this;
  Some (this, <[this := Collection.sort compareFunction M]> h).

Definition sorted (compareFunction : V -> V -> K -> K -> Z) (this : ref)
    (h : heap) : option (ref * heap) :=
  '(c, h') ← clone this h;
  sort (fun av bv ak bk => compareFunction av bv ak bk) c h'.

(** A later [set] or [delete] call, and a sequence of them on one object. *)
Inductive mutation : Type :=
  | Insert (key : K) (value : V)
  | Remove (key : K).

Definition mutate (this : ref) (m : mutation) (h : heap) : option heap :=
  match m with
  | Insert key value => snd <$> set this key value h
  | Remove key => snd <$> delete this key h
  end.

Fixpoint mutate_all (this : ref) (ms : list mutation) (h : heap)
  : option heap :=
  match ms with
  | [] => Some h
  | m :: ms' => h' ← mutate this m h; mutate_all this ms' h'
  end.
End Objects.
End Heap.

(* ================================================================== *)
(** ** The collection with cached arrays

    The variant of the class that keeps [_array] and [_keyArray], the arrays
    last built by [array()] and [keyArray()]; [None] is [null]. *)

Module Cached.
Section Methods.
Context {K V : Type} `{EqDecision K}.

Record collection : Type := Collection {
  data : MapData K V;
  _array : option (list V);
  _keyArray : option (list K)
}.

Definition set (key : K) (value : V) (this : collection) : collection :=
  let this := Collection (data this) None (_keyArray this) in
  let this := Collection (data this) (_array this) None in
  Collection (Map_set key value (data this)) (_array this) (_keyArray this).

Definition delete (key : K) (this : collection) : bool * collection :=
  let this := Collection (data this) None (_keyArray this) in
  let this := Collection (data this) (_array this) None in
  let '(b, M) := Map_delete key (data this) in
  (b, Collection M (_array this) (_keyArray this)).

(** [clear] is the one of [Map]: it is not overridden. *)
Definition clear (this : collection) : collection :=
  Collection (Map_clear (data this)) (_array this) (_keyArray this).

(** The constructor: [super(entries)] calls [this.set] on each pair, then
    both fields are defined as [null]. *)
Definition new (entries : list (K * V)) : collection :=
  let this :=
    fold_left (fun this e => set e.1 e.2 this) entries
      (Collection [] None None) in
  let this := Collection (data this) None (_keyArray this) in
  Collection (data this) (_array this) None.

(** [array()]: [if (!this._array || this._array.length !== this.size)] the
    array is built anew and cached; the cached array is what is returned. *)
Definition array (this : collection) : list V * collection :=
  let rebuilt :=
    let arr := Map_values (data this) in
    (arr, Collection (data this) (Some arr) (_keyArray this)) in
  match _array this with
  | None => rebuilt
  | Some arr =>
      if negb (length arr =? Map_size (data this)) then rebuilt
      else (arr, this)
  end.

Definition keyArray (this : collection) : list K * collection :=
  let rebuilt :=
    let arr := Map_keys (data this) in
    (arr, Collection (data this) (_array this) (Some arr)) in
  match _keyArray this with
  | None => rebuilt
  | Some arr =>
      if negb (length arr =? Map_size (data this)) then rebuilt
      else (arr, this)
  end.

(** [random]: as in [Collection.random], but the array is the cached one,
    copied before the draws, and the length of the result is [amount]
    itself. *)
Definition random_from {A : Type} (arr : list A) (amount : option number)
    (rs : random_source) : one_or_many A * random_source :=
  match amount with
  | None =>
      let '(i, rs') := random_index (length arr) rs in
      (One (Array_get i arr), rs')
  | Some amount =>
      if (length arr =? 0) || num_falsy amount then (Many [], rs)
      else
        let arr := Array_slice (of_Z 0) arr in
        let '(xs, (_, rs')) :=
          Array_from amount Collection.random_pick (arr, rs) in
        (Many xs, rs')
  end.

Definition random (amount : option number) (this : collection)
    (rs : random_source) : one_or_many V * collection * random_source :=
  let '(arr, this) := array this in
  let '(r, rs') := random_from arr amount rs in
  (r, this, rs').

Definition randomKey (amount : option number) (this : collection)
    (rs : random_source) : one_or_many K * collection * random_source :=
  let '(arr, this) := keyArray this in
  let '(r, rs') := random_from arr amount rs in
  (r, this, rs').
(** [first], [last] and their key variants.  [last] and [lastKey] read the
    cached array ([arrayOf] is [array] or [keyArray]), [first] and [firstKey]
    an iterator ([items] is [Map_values] or [Map_keys]); each calls the other
    one on a negative amount, and the callee may refresh the cache. *)
Section FirstLast.
Context {A : Type} (items : MapData K V -> list A).
Context (arrayOf : collection -> list A * collection).

Definition first_body
    (last_ : number -> collection -> one_or_many A * collection)
    (amount : option number) (this : collection)
  : one_or_many A * collection :=
  match amount with
  | None => (One (next (items (data this))).1, this)
  | Some amount =>
      if num_lt amount (of_Z 0) then last_ (num_mul amount (of_Z (-1))) this
      else
        let amount := Math_min (of_nat (Map_size (data this))) amount in
        let iter := items (data this) in
        (Many (Array_from amount next iter).1, this)
  end.

Definition last_body
    (first_ : number -> collection -> one_or_many A * collection)
    (amount : option number) (this : collection)
  : one_or_many A * collection :=
  let '(arr, this) := arrayOf this in
  match amount with
  | None => (One (Array_get (of_Z (Z.of_nat (length arr) - 1)) arr), this)
  | Some amount =>
      if num_lt amount (of_Z 0) then first_ (num_mul amount (of_Z (-1))) this
      else if num_falsy amount then (Many [], this)
      else (Many (Some <$> Array_slice (num_neg amount) arr), this)
  end.

(** As in the class without caches, the recursion is cut after one round
    (lemma [cached_first_of_eq]). *)
Definition first_of (amount : option number) (this : collection)
  : one_or_many A * collection :=
  first_body
    (fun a this => last_body (fun _ this => (Many [], this)) (Some a) this)
    amount this.

Definition last_of (amount : option number) (this : collection)
  : one_or_many A * collection :=
  last_body (fun a this => first_of (Some a) this) amount this.
End FirstLast.

Definition first := first_of Map_values array.
Definition firstKey := first_of Map_keys keyArray.
Definition last := last_of Map_values array.
Definition lastKey := last_of Map_keys keyArray.

(** [sort]: [clear] is the one of [Map], [set] the overridden one. *)
Definition sort (compareFunction : V -> V -> K -> K -> Z) (this : collection)
  : collection :=
  let entries := Map_entries (data this) in
  let entries := Array_sort (Collection.on_entries compareFunction) entries in
  let this := clear this in
  fold_left (fun this e => set e.1 e.2 this) entries this.
End Methods.
End Cached.

(* ================================================================== *)
(** ** Auxiliary definitions for the statements *)

(** A callback instrumented with the number of times it has been called. *)
Definition counting {K C St V : Type} (gen : K -> C -> St -> V * St)
  : K -> C -> St * nat -> V * (St * nat) :=
  fun key this '(st, n) =>
    let '(v, st') := gen key this st in (v, (st', S n)).

(** A callback of three arguments without state of its own, instrumented
    with the number of times it has been called. *)
Definition counted {A B C R : Type} (f : A -> B -> C -> R)
  : A -> B -> C -> nat -> R * nat :=
  fun a b c n => (f a b c, S n).

(** A callback called on each entry of a list, in order: the results and the
    state it ends in. *)
Fixpoint calls_in_order {K V St T : Type}
    (fn : V -> K -> MapData K V -> St -> T * St) (this : MapData K V)
    (es : list (K * V)) (st : St) : list T * St :=
  match es with
  | [] => ([], st)
  | e :: es' =>
      let '(y, st1) := fn e.2 e.1 this st in
      let '(ys, st2) := calls_in_order fn this es' st1 in
      (y :: ys, st2)
  end.

(** A callback answering the opposite. *)
Definition negated {K V St : Type}
    (fn : V -> K -> MapData K V -> St -> bool * St)
  : V -> K -> MapData K V -> St -> bool * St :=
  fun v k this st => let '(b, st') := fn v k this st in (negb b, st').

(** The value under [key] in the last collection of a list that has the
    key, [start] if none has. *)
Definition last_holder {K V : Type} `{EqDecision K} (key : K)
    (collections : list (MapData K V)) (start : option V) : option V :=
  fold_left
    (fun found coll =>
       match Map_get key coll with Some v => Some v | None => found end)
    collections start.

Section SweepSpecification.
Context {K V St : Type} `{EqDecision K}.

(** The sweep of the specification: [fn] is called on the entries of a
    snapshot taken at the start, in order, and is handed the collection as
    it was then ([this0]).  The entries it accepts are the ones to remove,
    the others are kept. *)
Fixpoint snapshot_calls (fn : V -> K -> MapData K V -> St -> bool * St)
    (this0 : MapData K V) (snapshot : list (K * V)) (st : St)
  : list (K * V) * list (K * V) * St :=
  match snapshot with
  | [] => ([], [], st)
  | e :: rest =>
      let '(b, st1) := fn e.2 e.1 this0 st in
      let '(removed, kept, st2) := snapshot_calls fn this0 rest st1 in
      if b then (e :: removed, kept, st2) else (removed, e :: kept, st2)
  end.

(** [sweep] does what the specification says: the entries left are the
    kept ones, in order, the result is the number of removed ones, [fn] has
    been called as on the snapshot, and no removed key is in the
    collection any more. *)
Definition sweep_as_specified (fn : V -> K -> MapData K V -> St -> bool * St)
    (this : MapData K V) (st : St) : Prop :=
  let '(n, this', st') := Collection.sweep fn this st in
  let '(removed, kept, st_end) :=
    snapshot_calls fn this (Map_entries this) st in
  Map_entries this' = kept
  /\ n = Z.of_nat (length removed)
  /\ st' = st_end
  /\ forall e, e ∈ removed -> Map_has e.1 this' = false.

(** What a sweep makes of a run of slots, [fn] being handed [this0]. *)
Fixpoint sweep_slots (fn : V -> K -> MapData K V -> St -> bool * St)
    (this0 : MapData K V) (slots : MapData K V) (st : St)
  : MapData K V * St :=
  match slots with
  | [] => ([], st)
  | None :: rest =>
      let '(rest', st') := sweep_slots fn this0 rest st in
      (None :: rest', st')
  | Some e :: rest =>
      let '(b, st1) := fn e.2 e.1 this0 st in
      let '(rest', st2) := sweep_slots fn this0 rest st1 in
      ((if b then None else Some e) :: rest', st2)
  end.
End SweepSpecification.

(** [Math.random()] returns numbers in the interval from 0 to 1, 1 excluded. *)
Definition unit_interval (rs : random_source) : Prop :=
  forall i, (0 <= draws rs i)%Q /\ (draws rs i < 1)%Q.

(** The position in an array of what is at position [p] once the item at
    position [j] is spliced out. *)
Definition before_splice (j p : nat) : nat := if p <? j then p else S p.

(** Calls on a collection with cached arrays, and what a sequence of them
    leaves of it. *)
Module CachedTrace.
Section Trace.
Context {K V : Type} `{EqDecision K}.

Inductive call : Type :=
  | CallSet (key : K) (value : V)
  | CallDelete (key : K)
  | CallClear
  | CallArray
  | CallKeyArray.

Definition step (this : Cached.collection) (c : call)
  : @Cached.collection K V :=
  match c with
  | CallSet key value => Cached.set key value this
  | CallDelete key => (Cached.delete key this).2
  | CallClear => Cached.clear this
  | CallArray => (Cached.array this).2
  | CallKeyArray => (Cached.keyArray this).2
  end.

Definition run (calls : list call) (this : Cached.collection)
  : @Cached.collection K V :=
  fold_left step calls this.

(** A cache that [array()] or [keyArray()] can be handed: none, or the
    current array, or one of another length. *)
Definition cache_ok {A : Type} (cache : option (list A)) (current : list A)
  : Prop :=
  match cache with
  | None => True
  | Some arr => arr = current \/ length arr <> length current
  end.

Definition caches_ok (this : @Cached.collection K V) : Prop :=
  cache_ok (Cached._array this) (Map_values (Cached.data this))
  /\ cache_ok (Cached._keyArray this) (Map_keys (Cached.data this)).
End Trace.
End CachedTrace.

(* ================================================================== *)
(** ** Concrete inputs *)

Definition abc_entries : list (string * Z) :=
  [("a", 1%Z); ("b", 2%Z); ("c", 3%Z)]%string.

(** The collections a:1, b:2, c:3; a:1, b:2; c:30, d:40, a:10; a:3, b:2,
    c:1. *)
Definition abc : MapData string Z := Map_new abc_entries.
Definition ab : MapData string Z := Map_new [("a", 1%Z); ("b", 2%Z)]%string.
Definition cda : MapData string Z :=
  Map_new [("c", 30%Z); ("d", 40%Z); ("a", 10%Z)]%string.
Definition cba : MapData string Z :=
  Map_new [("a", 3%Z); ("b", 2%Z); ("c", 1%Z)]%string.

(** A heap with the collection a:3, b:2, c:1, and one with a collection
    whose one value is [NaN]. *)
Definition cba_heap : gmap nat (MapData string Z) := {[ 0 := cba ]}.
Definition nan_heap : gmap nat (MapData string number) :=
  {[ 0 := [Some ("a"%string, NaN)] ]}.

(** A predicate that reads the collection it is handed: true while more than
    one entry is left. *)
Definition more_than_one (val : Z) (key : string) (this : MapData string Z)
    (st : unit) : bool * unit :=
  (1 <? Map_size this, st).

(** The predicate [x => x === 2]. *)
Definition is_two (val : Z) (key : string) (this : MapData string Z)
    (st : unit) : bool * unit :=
  ((val =? 2)%Z, st).

(** The comparator [(a, b) => a - b]. *)
Definition ascending (a b : Z) (_ _ : string) : Z := (a - b)%Z.

(** A [Math.random()] that returns 0.5 every time. *)
Definition halves : random_source := RandomSource (fun _ => (1 # 2)%Q) 0.

(* ================================================================== *)
(** * Properties *)

Arguments Map_entries : simpl never.
Arguments ToLength : simpl never.

(** On a concrete map the invariant is decided by computation. *)
Ltac keys_unique_by_computation :=
  unfold keys_unique; apply (bool_decide_unpack _); by vm_compute.

(** ** Numbers that are integers *)

Lemma num_mul_of_Z (a b : Z) : num_mul (of_Z a) (of_Z b) = of_Z (a * b).
Proof. reflexivity. Qed.

Lemma num_neg_of_Z (a : Z) : num_neg (of_Z a) = of_Z (- a).
Proof. reflexivity. Qed.

Lemma num_lt_of_Z (a b : Z) : num_lt (of_Z a) (of_Z b) = (a <? b)%Z.
Proof.
  unfold num_lt, of_Z, Qle_bool; simpl.
  by rewrite !Z.mul_1_r, Z.ltb_antisym.
Qed.

Lemma num_falsy_of_Z (a : Z) : num_falsy (of_Z a) = (a =? 0)%Z.
Proof. unfold num_falsy, of_Z, Qeq_bool; simpl. by rewrite !Z.mul_1_r. Qed.

Lemma Qtrunc_inject_Z (z : Z) : Qtrunc (inject_Z z) = z.
Proof.
  unfold Qtrunc, Qceiling. destruct (Qle_bool 0 (inject_Z z)).
  - apply Qfloor_Z.
  - change (- inject_Z z)%Q with (inject_Z (- z)). rewrite Qfloor_Z. lia.
Qed.

Lemma ToIntegerOrInfinity_of_Z (z : Z) : ToIntegerOrInfinity (of_Z z) = Int z.
Proof. unfold ToIntegerOrInfinity, of_Z. by rewrite Qtrunc_inject_Z. Qed.

Lemma ToLength_of_Z (z : Z) :
  (z <= 2 ^ 53 - 1)%Z -> ToLength (of_Z z) = Z.to_nat z.
Proof.
  intros Hz. unfold ToLength. rewrite ToIntegerOrInfinity_of_Z.
  by rewrite Z.min_l.
Qed.

Lemma Math_min_of_Z (a b : Z) : Math_min (of_Z a) (of_Z b) = of_Z (Z.min a b).
Proof.
  unfold Math_min.
  change ((if num_lt (of_Z b) (of_Z a) then of_Z b else of_Z a)
          = of_Z (Z.min a b)).
  rewrite num_lt_of_Z. destruct (Z.ltb_spec b a).
  - by rewrite Z.min_r by lia.
  - by rewrite Z.min_l by lia.
Qed.

Lemma Math_floor_of_Z (z : Z) : Math_floor (of_Z z) = of_Z z.
Proof. unfold Math_floor, of_Z. by rewrite Qfloor_Z. Qed.

(** ** Maps *)

Section MapFacts.
Context {K V : Type} `{EqDecision K}.
Implicit Types (M : MapData K V) (k key : K) (v : V).

Lemma Map_entries_cons_Some e M :
  Map_entries (Some e :: M) = e :: Map_entries M.
Proof. reflexivity. Qed.

Lemma Map_entries_cons_None M :
  Map_entries (None :: M) = Map_entries M.
Proof. reflexivity. Qed.

Lemma Map_has_elem key M : Map_has key M = true <-> key ∈ Map_keys M.
Proof.
  unfold Map_keys. induction M as [|[[k v]|] M IH].
  - split; [done | by intros ?%elem_of_nil].
  - rewrite Map_entries_cons_Some, fmap_cons, elem_of_cons. simpl.
    destruct (decide (k = key)) as [->|Hne]; [by split; [left|]|].
    rewrite IH. split; [by right|]. by intros [?|?].
  - by rewrite Map_entries_cons_None.
Qed.

Lemma Map_has_false key M : Map_has key M = false <-> key ∉ Map_keys M.
Proof. rewrite <- Map_has_elem. by destruct (Map_has key M). Qed.

Lemma Map_get_has key M : is_Some (Map_get key M) <-> Map_has key M = true.
Proof.
  induction M as [|[[k v]|] M IH]; simpl.
  - split; [by intros [? ?] | done].
  - destruct (decide (k = key)); [by split; eauto | done].
  - done.
Qed.

Lemma Map_get_elem key v M :
  keys_unique M -> Map_get key M = Some v <-> (key, v) ∈ Map_entries M.
Proof.
  unfold keys_unique, Map_keys.
  induction M as [|[[k w]|] M IH]; intros Hnd.
  - split; [done | by intros ?%elem_of_nil].
  - rewrite Map_entries_cons_Some in *. rewrite fmap_cons in Hnd.
    apply NoDup_cons in Hnd as [Hk Hnd]. rewrite elem_of_cons. simpl in *.
    destruct (decide (k = key)) as [->|Hne].
    + split; [intros [= ->]; by left|]. intros [[= ->]|Hin]; [done|].
      destruct Hk. apply list_elem_of_fmap. by exists (key, v).
    + rewrite IH by done. split; [by right|]. by intros [[= ? ?]|?].
  - rewrite Map_entries_cons_None in *. by apply IH.
Qed.

Lemma Map_entries_set_new key v M :
  Map_has key M = false ->
  Map_entries (Map_set key v M) = Map_entries M ++ [(key, v)].
Proof.
  induction M as [|[[k w]|] M IH]; simpl; intros Hhas; [done| |].
  - destruct (decide (k = key)); [done|].
    by rewrite !Map_entries_cons_Some, IH.
  - rewrite !Map_entries_cons_None. by apply IH.
Qed.

Lemma Map_has_set key k v M :
  Map_has key (Map_set k v M) = bool_decide (k = key) || Map_has key M.
Proof.
  induction M as [|[[k' w]|] M IH]; simpl.
  - destruct (decide (k = key));
      [rewrite bool_decide_true | rewrite bool_decide_false]; done.
  - destruct (decide (k' = k)) as [->|Hne]; simpl.
    + destruct (decide (k = key)).
      * by rewrite bool_decide_true.
      * by rewrite bool_decide_false.
    + destruct (decide (k' = key)); [by rewrite orb_true_r | done].
  - done.
Qed.

Lemma Map_get_set key k v M :
  Map_get key (Map_set k v M) =
    if decide (k = key) then Some v else Map_get key M.
Proof.
  induction M as [|[[k' w]|] M IH]; simpl.
  - by destruct (decide (k = key)).
  - destruct (decide (k' = k)) as [->|Hne]; simpl.
    + by destruct (decide (k = key)).
    + destruct (decide (k' = key)) as [->|]; [|done].
      by rewrite decide_False by done.
  - done.
Qed.

Lemma Map_keys_set key v M :
  Map_keys (Map_set key v M) =
    if Map_has key M then Map_keys M else Map_keys M ++ [key].
Proof.
  unfold Map_keys. induction M as [|[[k w]|] M IH]; simpl; [done| |].
  - destruct (decide (k = key)) as [->|Hne]; [done|].
    rewrite !Map_entries_cons_Some, !fmap_cons, IH.
    by destruct (Map_has key M).
  - by rewrite !Map_entries_cons_None.
Qed.

Lemma keys_unique_set key v M : keys_unique M -> keys_unique (Map_set key v M).
Proof.
  unfold keys_unique. rewrite Map_keys_set.
  destruct (Map_has key M) eqn:Hhas; [done|].
  intros Hnd. apply NoDup_app. split_and!; [done| |apply NoDup_singleton].
  intros x Hx ->%list_elem_of_singleton. by apply Map_has_false in Hhas.
Qed.

(** Setting the pairs of a list with distinct keys, none of them in the
    map, appends the list. *)
Lemma Map_entries_fold_set (l : list (K * V)) M :
  NoDup (l.*1) -> (forall k, k ∈ l.*1 -> Map_has k M = false) ->
  Map_entries (fold_left (fun M e => Map_set e.1 e.2 M) l M)
  = Map_entries M ++ l.
Proof.
  revert M. induction l as [|[k v] l IH]; intros M Hnd Hfresh; simpl.
  - by rewrite app_nil_r.
  - rewrite fmap_cons in Hnd. apply NoDup_cons in Hnd as [Hk Hnd].
    rewrite IH.
    + rewrite Map_entries_set_new; [by rewrite <- app_assoc|].
      apply Hfresh. rewrite fmap_cons. apply elem_of_cons. by left.
    + done.
    + intros k' Hk'. rewrite Map_has_set.
      rewrite bool_decide_false by (intros ->; done). simpl.
      apply Hfresh. rewrite fmap_cons. apply elem_of_cons. by right.
Qed.

Lemma Map_entries_new (l : list (K * V)) :
  NoDup (l.*1) -> Map_entries (Map_new l) = l.
Proof. intros Hnd. unfold Map_new. by rewrite Map_entries_fold_set. Qed.

Lemma Map_entries_clear M : Map_entries (Map_clear M) = [].
Proof. unfold Map_clear. induction M as [|[e|] M IH]; done. Qed.

Lemma Map_has_clear key M : Map_has key (Map_clear M) = false.
Proof. unfold Map_clear. induction M as [|[e|] M IH]; done. Qed.

Lemma Map_size_values M : length (Map_values M) = Map_size M.
Proof. unfold Map_values, Map_size. apply length_fmap. Qed.

Lemma Map_size_keys M : length (Map_keys M) = Map_size M.
Proof. unfold Map_keys, Map_size. apply length_fmap. Qed.
End MapFacts.

(** ** reduce *)

Section ReduceFacts.
Context {K V T : Type} `{EqDecision K}.
Context (cast : V -> T) (fn : T -> V -> K -> MapData K V -> T).

Lemma reduce_loop_started (this : MapData K V) (l : list (K * V)) (acc : T) :
  fold_left
    (fun accumulator e =>
       match accumulator with
       | None => Some (cast e.2)
       | Some accumulator => Some (fn accumulator e.2 e.1 this)
       end) l (Some acc)
  = Some (fold_left (fun accumulator e => fn accumulator e.2 e.1 this) l acc).
Proof. revert acc. induction l as [|e l IH]; intros acc; simpl; [done|apply IH]. Qed.

End ReduceFacts.

(** The sums of the test suite. *)
Example reduce_sums :
  Collection.reduce id (fun a x _ _ => (a + x)%Z) (Some 0%Z) abc = Return 6%Z
  /\ Collection.reduce id (fun a x _ _ => (a + x)%Z) None abc = Return 6%Z
  /\ Collection.reduce id (fun a x _ _ => (a + x)%Z) None
       (Map_new [] : MapData string Z)
     = Throw (TypeError "Reduce of empty collection with no initial value").
Proof. by vm_compute. Qed.

(** ** ensure *)

Section EnsureFacts.
Context {K V St : Type} `{EqDecision K}.

(** C10.  [ensure] on a key that is present returns the stored value,
    leaves the collection as it is and does not call the generator; on a
    key that is absent it calls the generator exactly once, stores the
    generated value under the key in a new entry at the end of the order
    (the size grows by one), and returns that value. *)
Theorem ensure_present_or_generated (key : K)
    (gen : K -> MapData K V -> St -> V * St)
    (this : MapData K V) (st : St) (n : nat) :
  let '(result, this', (st', calls)) :=
    Collection.ensure key (counting gen) this (st, n) in
  if Map_has key this then
    (exists v, Map_get key this = Some v /\ result = Some v)
    /\ this' = this /\ st' = st /\ calls = n
  else
    let '(v, st1) := gen key this st in
    result = Some v /\ st' = st1 /\ calls = S n
    /\ Map_entries this' = Map_entries this ++ [(key, v)]
    /\ Map_size this' = S (Map_size this)
    /\ Map_get key this' = Some v.
Proof.
  unfold Collection.ensure, counting.
  destruct (Map_has key this) eqn:Hhas.
  - split_and!; try done.
    apply Map_get_has in Hhas as [v Hv]. by exists v.
  - destruct (gen key this st) as [v st1].
    split_and!; try done.
    + by apply Map_entries_set_new.
    + unfold Map_size. rewrite Map_entries_set_new by done.
      rewrite length_app. simpl. lia.
    + rewrite Map_get_set. by rewrite decide_True.
Qed.
End EnsureFacts.

(** ** first, last, firstKey, lastKey *)

Lemma Array_get_of_Z {A : Type} (z : Z) (arr : list A) :
  Array_get (of_Z z) arr = if (0 <=? z)%Z then arr !! Z.to_nat z else None.
Proof.
  unfold Array_get, of_Z. rewrite Qfloor_Z.
  replace (Qeq_bool (inject_Z z) (inject_Z z)) with true; [done|].
  symmetry. by apply Qeq_bool_iff.
Qed.

Lemma Array_get_nil {A : Type} (i : number) : Array_get i (@nil A) = None.
Proof.
  destruct i as [| | |q]; try done. unfold Array_get.
  by destruct (_ && _).
Qed.

Lemma Array_from_loop_next {A : Type} (n : nat) (items : list A) :
  Array_from_loop n next items
  = ((Some <$> take n items) ++ replicate (n - length items) None,
     drop n items).
Proof.
  revert items. induction n as [|n IH]; intros items.
  - done.
  - destruct items as [|x items]; simpl; rewrite IH; simpl.
    + by rewrite take_nil, drop_nil, Nat.sub_0_r.
    + done.
Qed.

Lemma Array_from_next_take {A : Type} (n : nat) (items : list A) :
  n <= length items -> (Array_from_loop n next items).1 = Some <$> take n items.
Proof.
  intros Hn. rewrite Array_from_loop_next. simpl.
  replace (n - length items) with 0 by lia. apply app_nil_r.
Qed.

Lemma Array_slice_of_Z_neg {A : Type} (n : Z) (arr : list A) :
  (0 < n)%Z ->
  Array_slice (of_Z (- n)) arr
  = drop (length arr - Nat.min (Z.to_nat n) (length arr)) arr.
Proof.
  intros Hn. unfold Array_slice, relative_start.
  rewrite ToIntegerOrInfinity_of_Z.
  destruct (Z.ltb_spec (- n) 0); [|lia]. f_equal. lia.
Qed.

(** Negating a negative number gives one that is not negative. *)
Lemma num_lt_0_mul_m1 (a : number) :
  num_lt a (of_Z 0) = true -> num_lt (num_mul a (of_Z (-1))) (of_Z 0) = false.
Proof.
  destruct a as [| | |[p q]]; try done.
  unfold num_lt, num_mul, of_Z, Qle_bool; simpl.
  rewrite !Z.mul_1_r. intros Hlt%negb_true_iff%Z.leb_gt.
  apply negb_false_iff, Z.leb_le. lia.
Qed.

Section FirstLastFacts.
Context {A : Type}.
Implicit Types (items : list A) (n : Z).

(** The equations of the source: each of [first] and [last] calls the
    other one, not a cut-down copy of it. *)
Lemma first_of_eq items size amount :
  Collection.first_of items size amount
  = Collection.first_body
      (fun a => Collection.last_of items size (Some a)) items size amount.
Proof.
  unfold Collection.first_of, Collection.first_body.
  destruct amount as [a|]; [|done].
  destruct (num_lt a (of_Z 0)) eqn:Hneg; [|done].
  unfold Collection.last_of, Collection.last_body.
  by rewrite (num_lt_0_mul_m1 a Hneg).
Qed.

Lemma last_of_eq items size amount :
  Collection.last_of items size amount
  = Collection.last_body
      (fun a => Collection.first_of items size (Some a)) items amount.
Proof. reflexivity. Qed.

Lemma first_of_none items size :
  Collection.first_of items size None = One (items !! 0).
Proof. by destruct items. Qed.

Lemma last_of_none items size :
  Collection.last_of items size None = One (last items).
Proof.
  unfold Collection.last_of, Collection.last_body.
  rewrite Array_get_of_Z, last_lookup. f_equal.
  destruct items as [|x items]; [done|].
  destruct (Z.leb_spec 0 (Z.of_nat (length (x :: items)) - 1)); simpl in *; [|lia].
  f_equal. lia.
Qed.

Lemma first_of_nonneg items n :
  (Z.of_nat (length items) <= 2 ^ 53 - 1)%Z -> (0 <= n)%Z ->
  Collection.first_of items (length items) (Some (of_Z n))
  = Many (Some <$> take (Nat.min (Z.to_nat n) (length items)) items).
Proof.
  intros Hsize Hn. unfold Collection.first_of, Collection.first_body.
  rewrite num_lt_of_Z. destruct (Z.ltb_spec n 0); [lia|].
  unfold of_nat, Array_from. rewrite Math_min_of_Z, ToLength_of_Z by lia.
  rewrite Array_from_next_take by lia.
  do 3 f_equal. lia.
Qed.

Lemma last_of_nonneg items size n :
  (0 <= n)%Z ->
  Collection.last_of items size (Some (of_Z n))
  = Many (Some <$>
            drop (length items - Nat.min (Z.to_nat n) (length items)) items).
Proof.
  intros Hn. unfold Collection.last_of, Collection.last_body.
  rewrite num_lt_of_Z. destruct (Z.ltb_spec n 0); [lia|].
  rewrite num_falsy_of_Z. destruct (Z.eqb_spec n 0) as [->|Hne].
  - simpl. by rewrite Nat.sub_0_r, drop_all.
  - rewrite num_neg_of_Z, Array_slice_of_Z_neg by lia. done.
Qed.

Lemma first_of_neg items size n :
  Collection.first_of items size (Some (of_Z (- n)))
  = Collection.last_of items size (Some (of_Z n)).
Proof.
  destruct (Z.lt_trichotomy n 0) as [Hn|[->|Hn]].
  - rewrite (last_of_eq _ _ (Some (of_Z n))). unfold Collection.last_body.
    rewrite num_lt_of_Z. destruct (Z.ltb_spec n 0); [|lia].
    rewrite num_mul_of_Z. by replace (n * -1)%Z with (- n)%Z by lia.
  - unfold Collection.first_of, Collection.first_body,
      Collection.last_of, Collection.last_body.
    change (- 0)%Z with 0%Z. rewrite num_lt_of_Z, num_falsy_of_Z.
    change (0 <? 0)%Z with false. change (0 =? 0)%Z with true. cbv iota.
    unfold of_nat, Array_from. rewrite Math_min_of_Z, ToLength_of_Z by lia.
    by replace (Z.to_nat (Z.min (Z.of_nat size) 0)) with 0 by lia.
  - rewrite first_of_eq. unfold Collection.first_body.
    rewrite num_lt_of_Z. destruct (Z.ltb_spec (- n) 0); [|lia].
    rewrite num_mul_of_Z. by replace (- n * -1)%Z with n by lia.
Qed.

Lemma last_of_neg items size n :
  Collection.last_of items size (Some (of_Z (- n)))
  = Collection.first_of items size (Some (of_Z n)).
Proof.
  rewrite <- (Z.opp_involutive n) at 2. by rewrite first_of_neg.
Qed.

(** The contract of [first] and [last] over any sequence of items. *)
Lemma first_last_of items n :
  (Z.of_nat (length items) <= 2 ^ 53 - 1)%Z ->
  let size := length items in
  Collection.first_of items size None = One (items !! 0)
  /\ Collection.last_of items size None = One (last items)
  /\ ((0 <= n)%Z ->
      Collection.first_of items size (Some (of_Z n))
      = Many (Some <$> take (Nat.min (Z.to_nat n) size) items))
  /\ ((0 <= n)%Z ->
      Collection.last_of items size (Some (of_Z n))
      = Many (Some <$> drop (size - Nat.min (Z.to_nat n) size) items))
  /\ Collection.first_of items size (Some (of_Z (- n)))
     = Collection.last_of items size (Some (of_Z n))
  /\ Collection.last_of items size (Some (of_Z (- n)))
     = Collection.first_of items size (Some (of_Z n)).
Proof.
  intros Hsize size. split_and!.
  - apply first_of_none.
  - apply last_of_none.
  - by apply first_of_nonneg.
  - by apply last_of_nonneg.
  - apply first_of_neg.
  - apply last_of_neg.
Qed.
End FirstLastFacts.

Section FirstLastClaim.
Context {K V : Type} `{EqDecision K}.

(** C3.  [first()] is the value at position 0 ([undefined] on an empty
    collection) and [last()] the value at the last position; for [n >= 0],
    [first(n)] is the first [min(n, size)] values and [last(n)] the last
    [min(n, size)] values, in iteration order; [first(-n)] is [last(n)] and
    [last(-n)] is [first(n)]; [firstKey] and [lastKey] do the same over the
    keys.  The size is one a double holds exactly. *)
Theorem first_last_amounts (this : MapData K V) (n : Z) :
  (Z.of_nat (Map_size this) <= 2 ^ 53 - 1)%Z ->
  let size := Map_size this in
  (let vs := Map_values this in
   Collection.first None this = One (vs !! 0)
   /\ Collection.last None this = One (last vs)
   /\ ((0 <= n)%Z ->
       Collection.first (Some (of_Z n)) this
       = Many (Some <$> take (Nat.min (Z.to_nat n) size) vs))
   /\ ((0 <= n)%Z ->
       Collection.last (Some (of_Z n)) this
       = Many (Some <$> drop (size - Nat.min (Z.to_nat n) size) vs))
   /\ Collection.first (Some (of_Z (- n))) this
      = Collection.last (Some (of_Z n)) this
   /\ Collection.last (Some (of_Z (- n))) this
      = Collection.first (Some (of_Z n)) this)
  /\
  (let ks := Map_keys this in
   Collection.firstKey None this = One (ks !! 0)
   /\ Collection.lastKey None this = One (last ks)
   /\ ((0 <= n)%Z ->
       Collection.firstKey (Some (of_Z n)) this
       = Many (Some <$> take (Nat.min (Z.to_nat n) size) ks))
   /\ ((0 <= n)%Z ->
       Collection.lastKey (Some (of_Z n)) this
       = Many (Some <$> drop (size - Nat.min (Z.to_nat n) size) ks))
   /\ Collection.firstKey (Some (of_Z (- n))) this
      = Collection.lastKey (Some (of_Z n)) this
   /\ Collection.lastKey (Some (of_Z (- n))) this
      = Collection.firstKey (Some (of_Z n)) this).
Proof.
  intros Hsize size. split; intros items.
  - unfold Collection.first, Collection.last. fold items. subst size.
    rewrite <- (Map_size_values this) in *. by apply first_last_of.
  - unfold Collection.firstKey, Collection.lastKey. fold items. subst size.
    rewrite <- (Map_size_keys this) in *. by apply first_last_of.
Qed.
End FirstLastClaim.

Lemma first_last_amounts_witness :
  Collection.first (Some (of_Z 2)) abc = Many [Some 1%Z; Some 2%Z]
  /\ Collection.last (Some (of_Z 2)) abc = Many [Some 2%Z; Some 3%Z]
  /\ Collection.first (Some (of_Z (- 2))) abc
     = Collection.last (Some (of_Z 2)) abc
  /\ Collection.lastKey (Some (of_Z 2)) abc = Many [Some "b"; Some "c"]%string.
Proof.
  assert (Hsize : (Z.of_nat (Map_size abc) <= 2 ^ 53 - 1)%Z)
    by (vm_compute; discriminate).
  destruct (first_last_amounts abc 2 Hsize)
    as [(_ & _ & Hf & Hl & Hneg & _) (_ & _ & _ & Hlk & _)].
  split_and!.
  - apply Hf. lia.
  - apply Hl. lia.
  - apply Hneg.
  - apply Hlk. lia.
Defined.

(** ** at, keyAt *)

Section AtFacts.
Context {A : Type}.

(** [Array.prototype.at] on an integer index. *)
Lemma Array_at_of_Z (i : Z) (arr : list A) :
  Array_at (of_Z i) arr
  = if (0 <=? i)%Z then arr !! Z.to_nat i
    else if (- Z.of_nat (length arr) <=? i)%Z
         then arr !! (length arr - Z.to_nat (- i))
         else None.
Proof.
  unfold Array_at. rewrite ToIntegerOrInfinity_of_Z.
  destruct (Z.leb_spec 0 i).
  - destruct (Z.ltb_spec i 0); [lia|]. simpl.
    destruct (Z.leb_spec (Z.of_nat (length arr)) i); [|done].
    symmetry. apply lookup_ge_None. lia.
  - destruct (Z.leb_spec (- Z.of_nat (length arr)) i).
    + destruct (Z.ltb_spec (Z.of_nat (length arr) + i) 0); [lia|]. simpl.
      destruct (Z.leb_spec (Z.of_nat (length arr))
                  (Z.of_nat (length arr) + i)); [lia|].
      f_equal. lia.
    + destruct (Z.ltb_spec (Z.of_nat (length arr) + i) 0); [done|lia].
Qed.
End AtFacts.

Section AtClaim.
Context {K V : Type} `{EqDecision K}.

(** What [at] does with any finite index: the index is rounded down, then
    counted from the start, or from the end when negative; outside the
    collection the result is [undefined]. *)
Lemma at_floor (q : Q) (this : MapData K V) :
  let i := Qfloor q in
  let vs := Map_values this in
  Collection.at_ (Fin q) this
  = if (0 <=? i)%Z then vs !! Z.to_nat i
    else if (- Z.of_nat (length vs) <=? i)%Z
         then vs !! (length vs - Z.to_nat (- i))
         else None.
Proof. intros i vs. unfold Collection.at_. simpl. apply Array_at_of_Z. Qed.

Lemma keyAt_floor (q : Q) (this : MapData K V) :
  let i := Qfloor q in
  let ks := Map_keys this in
  Collection.keyAt (Fin q) this
  = if (0 <=? i)%Z then ks !! Z.to_nat i
    else if (- Z.of_nat (length ks) <=? i)%Z
         then ks !! (length ks - Z.to_nat (- i))
         else None.
Proof. intros i ks. unfold Collection.keyAt. simpl. apply Array_at_of_Z. Qed.
End AtClaim.

(** C4.  On the collection a:1, b:2, c:3 the index -1.5 is rounded down to
    -2, not toward zero to -1: [at(-1.5)] is the value 2 where [at(-1)] is
    the value 3, and likewise [keyAt(-1.5)] is "b" where [keyAt(-1)] is
    "c".  On integer and on non-negative indices [at] and [keyAt] behave as
    [Array.prototype.at]. *)
Theorem at_negative_fraction_rounds_down :
  Collection.at_ (Fin (- 3 # 2)) abc = Some 2%Z
  /\ Collection.at_ (of_Z (- 1)) abc = Some 3%Z
  /\ Array_at (Fin (- 3 # 2)) (Map_values abc) = Some 3%Z
  /\ Collection.keyAt (Fin (- 3 # 2)) abc = Some "b"%string
  /\ Collection.keyAt (of_Z (- 1)) abc = Some "c"%string.
Proof. by vm_compute. Qed.

(** ** sweep *)

Section SweepFacts.
Context {K V St : Type} `{EqDecision K}.
Implicit Types (M : MapData K V) (fn : V -> K -> MapData K V -> St -> bool * St).

Lemma Map_delete_length key M : length (Map_delete key M).2 = length M.
Proof.
  induction M as [|[[k v]|] M IH]; simpl; [done| |].
  - destruct (decide (k = key)); [done|].
    destruct (Map_delete key M); simpl in *. by rewrite IH.
  - destruct (Map_delete key M); simpl in *. by rewrite IH.
Qed.

(** The loop is over once the index has passed the last slot: any fuel that
    covers the slots from [index] on gives the same result. *)
Lemma sweep_loop_fuel fn fuel fuel' index M (st : St) :
  length M <= index + fuel -> length M <= index + fuel' ->
  Collection.sweep_loop fn fuel index M st
  = Collection.sweep_loop fn fuel' index M st.
Proof.
  revert fuel' index M st.
  induction fuel as [|fuel IH]; intros [|fuel'] index M st Hf Hf'; simpl.
  - done.
  - by rewrite (proj2 (lookup_ge_None M index)) by lia.
  - by rewrite (proj2 (lookup_ge_None M index)) by lia.
  - destruct (M !! index) as [[[key val]|]|]; [| |done].
    + destruct (fn val key M st) as [[] st'].
      * apply IH; rewrite Map_delete_length; lia.
      * apply IH; lia.
    + apply IH; lia.
Qed.

(** With distinct keys, [delete] empties the one slot that holds the key. *)
Lemma Map_delete_at key val index M :
  keys_unique M -> M !! index = Some (Some (key, val)) ->
  (Map_delete key M).2 = <[index := None]> M.
Proof.
  unfold keys_unique, Map_keys. revert index.
  induction M as [|[[k v]|] M IH]; intros index Hnd Hi; [done| |].
  - rewrite Map_entries_cons_Some, fmap_cons in Hnd.
    apply NoDup_cons in Hnd as [Hk Hnd]. simpl.
    destruct index as [|index]; simpl in *.
    + injection Hi as -> ->. by rewrite decide_True.
    + destruct (decide (k = key)) as [->|Hne].
      * destruct Hk. apply list_elem_of_fmap. exists (key, val). split; [done|].
        apply list_elem_of_omap. exists (Some (key, val)). split; [|done].
        by eapply list_elem_of_lookup_2.
      * specialize (IH index Hnd Hi).
        destruct (Map_delete key M); simpl in *. by rewrite IH.
  - rewrite Map_entries_cons_None in Hnd.
    destruct index as [|index]; simpl in *; [done|].
    specialize (IH index Hnd Hi).
    destruct (Map_delete key M); simpl in *. by rewrite IH.
Qed.

Lemma keys_unique_empty_slot index M :
  keys_unique M -> keys_unique (<[index := None]> M).
Proof.
  unfold keys_unique, Map_keys. revert index.
  induction M as [|[[k v]|] M IH]; intros index Hnd; [done| |].
  - rewrite Map_entries_cons_Some, fmap_cons in Hnd.
    apply NoDup_cons in Hnd as [Hk Hnd].
    destruct index as [|index]; simpl.
    + by rewrite Map_entries_cons_None.
    + rewrite ?Map_entries_cons_Some, ?fmap_cons. apply NoDup_cons.
      split; [|by apply IH].
      intros Hin. apply Hk. apply list_elem_of_fmap in Hin as [e [-> He]].
      apply list_elem_of_fmap. exists e. split; [done|].
      apply list_elem_of_omap in He as [[e'|] [He' ?]]; simplify_eq/=.
      apply list_elem_of_omap. exists (Some e). split; [|done].
      apply list_elem_of_lookup in He' as [j Hj].
      apply list_lookup_insert_Some in Hj as [(_ & ? & _)|[_ Hj]]; [done|].
      by eapply list_elem_of_lookup_2.
  - rewrite Map_entries_cons_None in Hnd.
    destruct index as [|index]; simpl; rewrite Map_entries_cons_None;
      [done|by apply IH].
Qed.

(** The live iteration, for a callback that does not look at the
    collection: the slots before the index are left alone and the slots
    from the index on are visited once each, in order. *)
Lemma sweep_loop_slots fn this0 fuel index M (st : St) :
  (forall v k M1 M2 s, fn v k M1 s = fn v k M2 s) ->
  keys_unique M -> length M <= index + fuel ->
  Collection.sweep_loop fn fuel index M st
  = let '(slots, st') := sweep_slots fn this0 (drop index M) st in
    (take index M ++ slots, st').
Proof.
  intros Hfn. revert index M st.
  induction fuel as [|fuel IH]; intros index M st Hnd Hfuel; simpl.
  - rewrite drop_ge by lia. simpl. by rewrite take_ge, app_nil_r by lia.
  - destruct (M !! index) as [[[key val]|]|] eqn:Hi.
    + rewrite (drop_S _ _ _ Hi). simpl.
      rewrite (Hfn val key M this0 st).
      destruct (fn val key this0 st) as [[] st1].
      * rewrite (Map_delete_at key val index M Hnd Hi).
        rewrite IH;
          [|by apply keys_unique_empty_slot|rewrite length_insert; lia].
        rewrite drop_insert_lt by lia.
        destruct (sweep_slots fn this0 (drop (S index) M) st1) as [slots st2].
        assert (Hlt : index < length M) by by eapply lookup_lt_Some.
        rewrite (take_S_r (<[index:=None]> M) index None)
          by by apply list_lookup_insert_eq.
        rewrite take_insert_ge by lia. by rewrite <- app_assoc.
      * rewrite IH by (done || lia).
        destruct (sweep_slots fn this0 (drop (S index) M) st1) as [slots st2].
        rewrite (take_S_r _ _ _ Hi). by rewrite <- app_assoc.
    + rewrite (drop_S _ _ _ Hi). simpl.
      rewrite IH by (done || lia).
      destruct (sweep_slots fn this0 (drop (S index) M) st) as [slots st2].
      rewrite (take_S_r _ _ _ Hi). by rewrite <- app_assoc.
    + apply lookup_ge_None in Hi.
      rewrite drop_ge by lia. simpl. by rewrite take_ge, app_nil_r by lia.
Qed.

(** The slots a sweep leaves hold the entries the snapshot run keeps. *)
Lemma sweep_slots_snapshot fn this0 (slots : MapData K V) (st : St) :
  let '(slots', st') := sweep_slots fn this0 slots st in
  let '(removed, kept, st_end) :=
    snapshot_calls fn this0 (Map_entries slots) st in
  Map_entries slots' = kept /\ st' = st_end.
Proof.
  revert st. induction slots as [|[e|] slots IH]; intros st; simpl.
  - done.
  - destruct (fn e.2 e.1 this0 st) as [b st1]. specialize (IH st1).
    destruct (sweep_slots fn this0 slots st1) as [slots' st2].
    destruct (snapshot_calls fn this0 (Map_entries slots) st1)
      as [[removed kept] st_end].
    destruct IH as [<- <-].
    destruct b; by rewrite ?Map_entries_cons_Some, ?Map_entries_cons_None.
  - rewrite Map_entries_cons_None. specialize (IH st).
    destruct (sweep_slots fn this0 slots st) as [slots' st2].
    by destruct (snapshot_calls fn this0 (Map_entries slots) st)
      as [[removed kept] st_end].
Qed.

(** The snapshot run puts every entry in exactly one of its two lists. *)
Lemma snapshot_calls_partition fn this0 (es : list (K * V)) (st : St) :
  let '(removed, kept, _) := snapshot_calls fn this0 es st in
  es ≡ₚ removed ++ kept.
Proof.
  revert st. induction es as [|e es IH]; intros st; simpl; [done|].
  destruct (fn e.2 e.1 this0 st) as [b st1]. specialize (IH st1).
  destruct (snapshot_calls fn this0 es st1) as [[removed kept] st_end].
  destruct b; simpl.
  - by constructor.
  - rewrite IH. apply Permutation_middle.
Qed.

(** C2, as amended.  For a predicate whose answer does not depend on the
    collection it is handed, and a collection without duplicate keys:
    [sweep] calls the predicate once on each entry, in iteration order,
    removes exactly the entries it accepts and keeps the others in order,
    returns the number of removed entries, and afterwards [has] is false
    for every removed key.  (The iteration is over the live map: there is
    no snapshot, and a predicate that reads the collection sees it with
    the entries removed so far missing.) *)
Theorem sweep_removes_accepted fn (this : MapData K V) (st : St) :
  keys_unique this ->
  (forall v k M1 M2 s, fn v k M1 s = fn v k M2 s) ->
  sweep_as_specified fn this st.
Proof.
  intros Hnd Hfn. unfold sweep_as_specified, Collection.sweep.
  rewrite (sweep_loop_slots fn this) by (done || lia).
  rewrite drop_0, take_0. simpl.
  pose proof (sweep_slots_snapshot fn this this st) as Hslots.
  pose proof (snapshot_calls_partition fn this (Map_entries this) st) as Hpart.
  destruct (sweep_slots fn this this st) as [this' st'].
  destruct (snapshot_calls fn this (Map_entries this) st)
    as [[removed kept] st_end].
  destruct Hslots as [Hkept <-]. split_and!; [done| |done|].
  - unfold Map_size. rewrite Hkept.
    apply Permutation_length in Hpart. rewrite length_app in Hpart. lia.
  - intros e He. apply Map_has_false. unfold Map_keys. rewrite Hkept.
    unfold keys_unique, Map_keys in Hnd. rewrite Hpart, fmap_app in Hnd.
    apply NoDup_app in Hnd as (_ & Hdisj & _). apply Hdisj.
    by apply list_elem_of_fmap_2.
Qed.
End SweepFacts.

Section SweepPredicate.
Context {K V : Type} `{EqDecision K} (P : V -> K -> bool).

(** For a predicate without state, the snapshot run is a partition by the
    predicate. *)
Lemma snapshot_calls_pure (this0 : MapData K V) (es : list (K * V)) :
  snapshot_calls (fun v k _ (st : unit) => (P v k, st)) this0 es tt
  = (filter (fun e => P e.2 e.1 = true) es,
     filter (fun e => P e.2 e.1 = false) es, tt).
Proof.
  induction es as [|e es IH]; [done|].
  cbn [snapshot_calls]. rewrite IH, !filter_cons.
  destruct (P e.2 e.1) eqn:HP.
  - by rewrite decide_True, decide_False by done.
  - by rewrite decide_False, decide_True by done.
Qed.

(** [sweep] with a predicate on value and key: the entries it accepts are
    gone, the others are left in order, and the result counts the former. *)
Lemma sweep_pure_predicate (this : MapData K V) :
  keys_unique this ->
  let '(n, this', _) :=
    Collection.sweep (fun v k _ (st : unit) => (P v k, st)) this tt in
  Map_entries this' = filter (fun e => P e.2 e.1 = false) (Map_entries this)
  /\ n = Z.of_nat (length (filter (fun e => P e.2 e.1 = true) (Map_entries this)))
  /\ forall e, e ∈ Map_entries this -> P e.2 e.1 = true ->
       Map_has e.1 this' = false.
Proof.
  intros Hnd. unfold Collection.sweep.
  rewrite (sweep_loop_slots _ this) by (done || lia).
  rewrite drop_0, take_0. simpl.
  pose proof (sweep_slots_snapshot
                (fun v k _ (st : unit) => (P v k, st)) this this tt) as Hslots.
  rewrite snapshot_calls_pure in Hslots.
  destruct (sweep_slots _ this this tt) as [this' st'].
  destruct Hslots as [Hkept _].
  pose proof (filter_app_complement (fun e => P e.2 e.1 = true)
                (Map_entries this)) as Hpart.
  rewrite (list_filter_iff (fun e => ¬ P e.2 e.1 = true)
             (fun e => P e.2 e.1 = false)) in Hpart
    by (intros e; by destruct (P e.2 e.1)).
  split_and!; [done| |].
  - unfold Map_size. rewrite Hkept.
    apply Permutation_length in Hpart. rewrite length_app in Hpart. lia.
  - intros e He HP. apply Map_has_false. unfold Map_keys. rewrite Hkept.
    intros (e' & Heq & [HP' He']%list_elem_of_filter)%list_elem_of_fmap.
    assert (e = e') as <-; [|congruence].
    unfold keys_unique, Map_keys in Hnd.
    destruct e as [k v], e' as [k' v']. simpl in Heq. subst k'.
    f_equal. apply (Map_get_elem k v this) in He; [|done].
    apply (Map_get_elem k v' this) in He'; [|done]. congruence.
Qed.
End SweepPredicate.

(** The test suite: sweeping the value 2 out of a:1, b:2, c:3 removes one
    entry and leaves a:1, c:3; a second sweep for the value 4 removes none. *)
Example sweep_test :
  let '(n1, coll, _) := Collection.sweep is_two abc tt in
  n1 = 1%Z /\ Map_values coll = [1%Z; 3%Z]
  /\ let '(n2, coll', _) :=
       Collection.sweep (fun v _ _ st => ((v =? 4)%Z, st)) coll tt in
     n2 = 0%Z /\ Map_values coll' = [1%Z; 3%Z].
Proof. by vm_compute. Qed.

Lemma sweep_removes_accepted_witness :
  Collection.sweep is_two abc tt
  = (1%Z, [Some ("a", 1%Z); None; Some ("c", 3%Z)]%string, tt)
  /\ sweep_as_specified is_two abc tt.
Proof.
  split; [by vm_compute|].
  apply sweep_removes_accepted.
  - keys_unique_by_computation.
  - reflexivity.
Defined.

(** C2, as stated, fails: on the collection a:1, b:2 the predicate "more than
    one entry is left" holds of both entries at the start of the call, and
    [sweep] removes only a and returns 1: when b is visited the predicate
    sees the collection without a. *)
Lemma sweep_snapshot_counterexample :
  keys_unique ab
  /\ Collection.sweep more_than_one ab tt
     = (1%Z, [None; Some ("b", 2%Z)]%string, tt)
  /\ (snapshot_calls more_than_one ab (Map_entries ab) tt).1.1
     = [("a", 1%Z); ("b", 2%Z)]%string
  /\ ~ sweep_as_specified more_than_one ab tt.
Proof.
  split_and!; [keys_unique_by_computation|by vm_compute..|].
  intros [Hkept _]. vm_compute in Hkept. discriminate.
Qed.

(** ** random, randomKey *)

Section RandomFacts.
Context {A : Type}.
Implicit Types (arr items : list A) (rs : random_source).

Lemma random_index_range len rs :
  unit_interval rs -> 0 < len ->
  exists j, j < len
    /\ random_index len rs = (of_nat j, RandomSource (draws rs) (S (calls rs))).
Proof.
  intros Hrs Hlen. destruct (Hrs (calls rs)) as [H0 H1].
  set (r := draws rs (calls rs)) in *.
  set (x := (r * inject_Z (Z.of_nat len))%Q).
  assert (Hlo : (0 <= Qfloor x)%Z).
  { change 0%Z with (Qfloor (inject_Z 0)). apply Qfloor_resp_le.
    apply Qmult_le_0_compat; [done|].
    change 0%Q with (inject_Z 0). rewrite <- Zle_Qle. lia. }
  assert (Hhi : (Qfloor x < Z.of_nat len)%Z).
  { rewrite Zlt_Qlt. eapply Qle_lt_trans; [apply Qfloor_le|].
    unfold x. rewrite <- (Qmult_1_l (inject_Z (Z.of_nat len))) at 2.
    apply Qmult_lt_compat_r; [|done].
    change 0%Q with (inject_Z 0). rewrite <- Zlt_Qlt. lia. }
  exists (Z.to_nat (Qfloor x)). split; [lia|].
  unfold random_index. f_equal. fold r. unfold of_nat at 2.
  rewrite Z2Nat.id by done. reflexivity.
Qed.

Lemma Array_splice_one j arr :
  j < length arr ->
  Array_splice (of_nat j) (of_Z 1) arr
  = (take 1 (drop j arr), delete j arr).
Proof.
  intros Hj. unfold Array_splice, relative_start, of_nat.
  rewrite !ToIntegerOrInfinity_of_Z.
  destruct (Z.ltb_spec (Z.of_nat j) 0); [lia|].
  replace (Z.to_nat (Z.min (Z.of_nat j) (Z.of_nat (length arr)))) with j by lia.
  replace (Nat.min (Z.to_nat (Z.max 1 0)) (length arr - j)) with 1 by lia.
  by rewrite delete_take_drop, Nat.add_1_r.
Qed.

Lemma random_pick_delete arr rs :
  unit_interval rs -> 0 < length arr ->
  exists j, j < length arr
    /\ Collection.random_pick (arr, rs)
       = (arr !! j, (delete j arr, RandomSource (draws rs) (S (calls rs)))).
Proof.
  intros Hrs Hlen.
  destruct (random_index_range (length arr) rs Hrs Hlen) as (j & Hj & Hidx).
  exists j. split; [done|]. unfold Collection.random_pick.
  rewrite Hidx, Array_splice_one by done.
  by rewrite lookup_take_lt, lookup_drop, Nat.add_0_r by lia.
Qed.

(** On an array with nothing left, a pick is [undefined]. *)
Lemma random_pick_empty rs :
  Collection.random_pick (@nil A, rs)
  = (None, ([], RandomSource (draws rs) (S (calls rs)))).
Proof.
  unfold Collection.random_pick, random_index, Array_splice.
  by rewrite !drop_nil, !take_nil.
Qed.

Lemma before_splice_lookup j p arr :
  delete j arr !! p = arr !! before_splice j p.
Proof.
  unfold before_splice. rewrite list_lookup_delete.
  destruct (decide (p < j)), (Nat.ltb_spec p j); done || lia.
Qed.

Lemma before_splice_inj j : Inj eq eq (before_splice j).
Proof.
  intros p q. unfold before_splice.
  destruct (Nat.ltb_spec p j), (Nat.ltb_spec q j); lia.
Qed.

(** [n] picks from an array that has at least [n] items are its items at
    [n] distinct positions. *)
Lemma random_picks_distinct n arr rs :
  unit_interval rs -> n <= length arr ->
  exists positions arr',
    Array_from_loop n Collection.random_pick (arr, rs)
    = ((fun i => arr !! i) <$> positions,
       (arr', RandomSource (draws rs) (n + calls rs)))
    /\ length positions = n
    /\ NoDup positions
    /\ Forall (fun i => i < length arr) positions.
Proof.
  intros Hrs. revert arr rs Hrs.
  induction n as [|n IH]; intros arr rs Hrs Hn.
  - exists [], arr. destruct rs. split_and!; [done|done|constructor|constructor].
  - destruct (random_pick_delete arr rs Hrs) as (j & Hj & Hpick); [lia|].
    assert (Hlen : length (delete j arr) = length arr - 1)
      by by apply length_delete, lookup_lt_is_Some.
    destruct (IH (delete j arr) (RandomSource (draws rs) (S (calls rs))))
      as (ps & arr' & Hloop & Hps & Hnd & Hlt); [done|lia|].
    exists (j :: (before_splice j <$> ps)), arr'.
    split_and!.
    + cbn [Array_from_loop]. rewrite Hpick, Hloop. simpl.
      rewrite <- list_fmap_compose. f_equal; [|f_equal; f_equal; lia].
      f_equal. apply list_fmap_ext. intros _ p _. simpl.
      apply before_splice_lookup.
    + simpl. by rewrite length_fmap, Hps.
    + apply NoDup_cons. split.
      * intros (p & Hp & _)%list_elem_of_fmap. unfold before_splice in Hp.
        destruct (Nat.ltb_spec p j); lia.
      * apply NoDup_fmap_2; [apply before_splice_inj|done].
    + constructor; [done|]. apply Forall_fmap.
      eapply Forall_impl; [exact Hlt|]. intros p Hp. simpl in *.
      unfold before_splice. destruct (Nat.ltb_spec p j); lia.
Qed.

(** The contract of [random] over any sequence of items. *)
Lemma random_of_draws items (n : Z) rs :
  unit_interval rs ->
  (Z.of_nat (length items) <= 2 ^ 53 - 1)%Z ->
  ((0 < n)%Z ->
   exists positions rs',
     Collection.random_of items (Some (of_Z n)) rs
     = (Many ((fun i => items !! i) <$> positions), rs')
     /\ length positions = Nat.min (Z.to_nat n) (length items)
     /\ NoDup positions
     /\ Forall (fun i => i < length items) positions)
  /\ (items = [] \/ n = 0%Z ->
      Collection.random_of items (Some (of_Z n)) rs = (Many [], rs))
  /\ Collection.random_of items (Some NaN) rs = (Many [], rs)
  /\ (exists x rs',
        Collection.random_of items None rs = (One x, rs')
        /\ (items = [] -> x = None)
        /\ (items <> [] -> exists i, i < length items /\ x = items !! i)).
Proof.
  intros Hrs Hsize. split_and!.
  - intros Hn. unfold Collection.random_of.
    destruct (Nat.eqb_spec (length items) 0) as [Hnil|Hlen].
    { apply nil_length_inv in Hnil as ->.
      exists [], rs. split_and!; [done|simpl; lia|constructor|constructor]. }
    rewrite num_falsy_of_Z. destruct (Z.eqb_spec n 0); [lia|].
    cbn [orb].
    unfold of_nat, Array_from. rewrite Math_min_of_Z, ToLength_of_Z by lia.
    destruct (random_picks_distinct
                (Z.to_nat (Z.min n (Z.of_nat (length items)))) items rs Hrs)
      as (ps & arr' & Hloop & Hps & Hnd & Hlt); [lia|].
    rewrite Hloop. eexists ps, _. split_and!; [reflexivity|lia|done..].
  - intros [->| ->]; [done|]. unfold Collection.random_of.
    by rewrite num_falsy_of_Z, orb_true_r.
  - unfold Collection.random_of. by rewrite orb_true_r.
  - unfold Collection.random_of. destruct items as [|x items].
    + eexists _, _. split_and!; [reflexivity| |done]. intros _.
      apply Array_get_nil.
    + destruct (random_index_range (length (x :: items)) rs Hrs)
        as (j & Hj & ->); [simpl; lia|].
      eexists _, _. split_and!; [reflexivity|done|]. intros _.
      exists j. split; [done|]. unfold of_nat.
      rewrite Array_get_of_Z. destruct (Z.leb_spec 0 (Z.of_nat j)); [|lia].
      by rewrite Nat2Z.id.
Qed.
End RandomFacts.

(** X28.  The contract of [random] and of [randomKey] in the class without
    caches: for a positive count [n], [min(n, size)] items at pairwise distinct
    positions; an empty array on an empty collection or a falsy count; a
    single item, [undefined] on an empty collection, without count. *)
Theorem random_without_replacement {K V : Type} `{EqDecision K}
    (this : MapData K V) (n : Z) (rs : random_source) :
  unit_interval rs ->
  (Z.of_nat (Map_size this) <= 2 ^ 53 - 1)%Z ->
  let size := Map_size this in
  (let vs := Map_values this in
   ((0 < n)%Z ->
    exists positions rs',
      Collection.random (Some (of_Z n)) this rs
      = (Many ((fun i => vs !! i) <$> positions), rs')
      /\ length positions = Nat.min (Z.to_nat n) size
      /\ NoDup positions
      /\ Forall (fun i => i < size) positions)
   /\ (vs = [] \/ n = 0%Z ->
       Collection.random (Some (of_Z n)) this rs = (Many [], rs))
   /\ Collection.random (Some NaN) this rs = (Many [], rs)
   /\ (exists x rs',
         Collection.random None this rs = (One x, rs')
         /\ (vs = [] -> x = None)
         /\ (vs <> [] -> exists i, i < size /\ x = vs !! i)))
  /\
  (let ks := Map_keys this in
   ((0 < n)%Z ->
    exists positions rs',
      Collection.randomKey (Some (of_Z n)) this rs
      = (Many ((fun i => ks !! i) <$> positions), rs')
      /\ length positions = Nat.min (Z.to_nat n) size
      /\ NoDup positions
      /\ Forall (fun i => i < size) positions)
   /\ (ks = [] \/ n = 0%Z ->
       Collection.randomKey (Some (of_Z n)) this rs = (Many [], rs))
   /\ Collection.randomKey (Some NaN) this rs = (Many [], rs)
   /\ (exists x rs',
         Collection.randomKey None this rs = (One x, rs')
         /\ (ks = [] -> x = None)
         /\ (ks <> [] -> exists i, i < size /\ x = ks !! i))).
Proof.
  intros Hrs Hsize size. split; intros items.
  - unfold Collection.random. fold items. subst size.
    rewrite <- (Map_size_values this) in *. by apply random_of_draws.
  - unfold Collection.randomKey. fold items. subst size.
    rewrite <- (Map_size_keys this) in *. by apply random_of_draws.
Qed.

Lemma Array_from_loop_length {St B : Type} (n : nat) (mapFn : St -> B * St)
    (st : St) :
  length (Array_from_loop n mapFn st).1 = n.
Proof.
  revert st. induction n as [|n IH]; intros st; simpl; [done|].
  destruct (mapFn st) as [x st1]. specialize (IH st1).
  destruct (Array_from_loop n mapFn st1). simpl in *. by rewrite IH.
Qed.

(** The variant with cached arrays makes [amount] draws, also past the last
    item. *)
Lemma cached_random_from_length {A : Type} (arr : list A) (n : Z)
    (rs : random_source) :
  arr <> [] -> (0 < n <= 2 ^ 53 - 1)%Z ->
  exists xs rs',
    Cached.random_from arr (Some (of_Z n)) rs = (Many xs, rs')
    /\ length xs = Z.to_nat n.
Proof.
  intros Harr Hn. unfold Cached.random_from.
  destruct (Nat.eqb_spec (length arr) 0) as [Hnil|_].
  { by apply nil_length_inv in Hnil. }
  rewrite num_falsy_of_Z. destruct (Z.eqb_spec n 0); [lia|]. cbn [orb].
  pose proof (Array_from_loop_length (Z.to_nat n) Collection.random_pick
                (Array_slice (of_Z 0) arr, rs)) as Hlen.
  unfold Array_from. rewrite ToLength_of_Z by lia.
  destruct (Array_from_loop _ _ _) as [xs [arr' rs']].
  by exists xs, rs'.
Qed.

(** C5.  On the collection a:1, b:2, c:3 the variant of [random] with cached
    arrays returns five items for [random(5)], the last two [undefined],
    where [random] of the class without caches returns three. *)
Theorem cached_random_past_size :
  (Cached.random (Some (of_Z 5)) (Cached.new abc_entries) halves).1.1
  = Many [Some 2%Z; Some 3%Z; Some 1%Z; None; None]
  /\ (Cached.randomKey (Some (of_Z 5)) (Cached.new abc_entries) halves).1.1
     = Many [Some "b"; Some "c"; Some "a"; None; None]%string
  /\ (Collection.random (Some (of_Z 5)) abc halves).1
     = Many [Some 2%Z; Some 3%Z; Some 1%Z].
Proof. by vm_compute. Qed.

(** ** array, keyArray *)

Section CacheFacts.
Context {K V : Type} `{EqDecision K}.
Implicit Types (this : @Cached.collection K V).
Import CachedTrace.

Lemma cache_ok_clear {A : Type} (cache : option (list A)) (current : list A) :
  cache_ok cache current -> cache_ok cache [].
Proof.
  destruct cache as [[|x arr]|]; simpl; [by left|by right|done].
Qed.

Lemma caches_ok_new (entries : list (K * V)) : caches_ok (Cached.new entries).
Proof. done. Qed.

Lemma caches_ok_step this c : caches_ok this -> caches_ok (step this c).
Proof.
  intros [Ha Hk]. destruct this as [M a k]. simpl in *.
  destruct c as [key value|key| | |]; simpl.
  - done.
  - unfold Cached.delete. simpl. by destruct (Map_delete key M).
  - unfold caches_ok, Cached.clear. simpl.
    unfold Map_values, Map_keys. rewrite Map_entries_clear.
    split; by eapply cache_ok_clear.
  - unfold Cached.array. simpl. destruct a as [arr|]; simpl.
    + destruct (negb _); split; first [assumption | by left].
    + split; first [assumption | by left].
  - unfold Cached.keyArray. simpl. destruct k as [arr|]; simpl.
    + destruct (negb _); split; first [assumption | by left].
    + split; first [assumption | by left].
Qed.

Lemma caches_ok_run calls this : caches_ok this -> caches_ok (run calls this).
Proof.
  revert this. induction calls as [|c calls IH]; intros this Hok; [done|].
  simpl. by apply IH, caches_ok_step.
Qed.

Lemma array_current this :
  caches_ok this -> (Cached.array this).1 = Map_values (Cached.data this).
Proof.
  intros [Ha _]. unfold Cached.array. destruct (Cached._array this) as [arr|]; [|done].
  destruct (Nat.eqb_spec (length arr) (Map_size (Cached.data this))) as [Hlen|]; [|done].
  simpl. destruct Ha as [->|Hne]; [done|].
  by rewrite Map_size_values in Hne.
Qed.

Lemma keyArray_current this :
  caches_ok this -> (Cached.keyArray this).1 = Map_keys (Cached.data this).
Proof.
  intros [_ Hk]. unfold Cached.keyArray.
  destruct (Cached._keyArray this) as [arr|]; [|done].
  destruct (Nat.eqb_spec (length arr) (Map_size (Cached.data this))) as [Hlen|]; [|done].
  simpl. destruct Hk as [->|Hne]; [done|].
  by rewrite Map_size_keys in Hne.
Qed.

(** C6.  After any sequence of [set], [delete] (and [clear], [array],
    [keyArray]) calls on a newly constructed collection, [array()] returns
    the current values and [keyArray()] the current keys, in iteration
    order; [set] and [delete] discard both caches; and a cached array whose
    length is not the current size is not returned but replaced. *)
Theorem cached_arrays_current (entries : list (K * V)) (calls : list call) :
  let this := run calls (Cached.new entries) in
  (Cached.array this).1 = Map_values (Cached.data this)
  /\ (Cached.keyArray this).1 = Map_keys (Cached.data this)
  /\ (forall key value,
        Cached._array (Cached.set key value this) = None
        /\ Cached._keyArray (Cached.set key value this) = None)
  /\ (forall key,
        Cached._array (Cached.delete key this).2 = None
        /\ Cached._keyArray (Cached.delete key this).2 = None)
  /\ (forall arr,
        Cached._array this = Some arr ->
        length arr <> Map_size (Cached.data this) ->
        Cached._array (Cached.array this).2
        = Some (Map_values (Cached.data this)))
  /\ (forall arr,
        Cached._keyArray this = Some arr ->
        length arr <> Map_size (Cached.data this) ->
        Cached._keyArray (Cached.keyArray this).2
        = Some (Map_keys (Cached.data this))).
Proof.
  intros this.
  assert (Hok : caches_ok this) by apply caches_ok_run, caches_ok_new.
  split_and!.
  - by apply array_current.
  - by apply keyArray_current.
  - done.
  - intros key. unfold Cached.delete. simpl.
    by destruct (Map_delete key (Cached.data this)).
  - intros arr Harr Hlen. unfold Cached.array. rewrite Harr.
    by destruct (Nat.eqb_spec (length arr) (Map_size (Cached.data this))).
  - intros arr Harr Hlen. unfold Cached.keyArray. rewrite Harr.
    by destruct (Nat.eqb_spec (length arr) (Map_size (Cached.data this))).
Qed.
End CacheFacts.

(** The test suite: [array()] after three [set] calls, and again after a
    fourth; then after a [delete] and after a [clear]. *)
Lemma cached_arrays_current_witness :
  let calls :=
    [CachedTrace.CallArray; CachedTrace.CallSet "d"%string 4%Z;
     CachedTrace.CallArray; CachedTrace.CallKeyArray] in
  (Cached.array (CachedTrace.run calls (Cached.new abc_entries))).1
  = [1%Z; 2%Z; 3%Z; 4%Z]
  /\ (Cached.keyArray
        (CachedTrace.run (calls ++ [CachedTrace.CallDelete "b"%string])
           (Cached.new abc_entries))).1
     = ["a"; "c"; "d"]%string
  /\ (Cached.array
        (CachedTrace.run (calls ++ [CachedTrace.CallClear])
           (Cached.new abc_entries))).1
     = [].
Proof.
  intros calls. split_and!.
  - by rewrite (proj1 (cached_arrays_current abc_entries calls)).
  - by rewrite (proj1 (proj2 (cached_arrays_current abc_entries
                                (calls ++ [CachedTrace.CallDelete "b"%string])))).
  - by rewrite (proj1 (cached_arrays_current abc_entries
                         (calls ++ [CachedTrace.CallClear]))).
Defined.

(** ** intersect, difference *)

Section SetAlgebraFacts.
Context {K V : Type} `{EqDecision K}.
Implicit Types (A B M coll : MapData K V) (es : list (K * V)).

(** A loop that sets the entries a test accepts sets the accepted ones. *)
Lemma fold_set_if (P : K -> bool) es coll :
  fold_left (fun coll e => if P e.1 then Map_set e.1 e.2 coll else coll) es coll
  = fold_left (fun coll e => Map_set e.1 e.2 coll)
      (filter (fun e => P e.1 = true) es) coll.
Proof.
  revert coll. induction es as [|e es IH]; intros coll; [done|].
  rewrite filter_cons. simpl. destruct (P e.1) eqn:HP.
  - rewrite decide_True by done. simpl. apply IH.
  - rewrite decide_False by done. apply IH.
Qed.

Lemma NoDup_filter_keys (P : K * V -> Prop) `{!forall e, Decision (P e)} es :
  NoDup (es.*1) -> NoDup ((filter P es).*1).
Proof.
  induction es as [|e es IH]; [done|].
  rewrite fmap_cons, filter_cons. intros [He Hnd]%NoDup_cons.
  destruct (decide (P e)); [|by apply IH].
  rewrite fmap_cons. apply NoDup_cons. split; [|by apply IH].
  intros (e' & Heq & [_ Hin]%list_elem_of_filter)%list_elem_of_fmap.
  apply He. apply list_elem_of_fmap. by exists e'.
Qed.

Lemma intersect_entries A B :
  keys_unique B ->
  Map_entries (Collection.intersect A B)
  = filter (fun e => Map_has e.1 A = true) (Map_entries B).
Proof.
  intros HB. unfold Collection.intersect.
  rewrite (fold_set_if (fun k => Map_has k A)).
  rewrite Map_entries_fold_set; [done| |done].
  by apply NoDup_filter_keys.
Qed.

Lemma difference_entries A B :
  keys_unique A -> keys_unique B ->
  Map_entries (Collection.difference A B)
  = filter (fun e => Map_has e.1 A = false) (Map_entries B)
    ++ filter (fun e => Map_has e.1 B = false) (Map_entries A).
Proof.
  intros HA HB. unfold Collection.difference.
  rewrite (fold_set_if (fun k => negb (Map_has k A))).
  rewrite (fold_set_if (fun k => negb (Map_has k B))).
  rewrite (list_filter_iff (fun e => negb (Map_has e.1 A) = true)
             (fun e => Map_has e.1 A = false))
    by (intros e; apply negb_true_iff).
  rewrite (list_filter_iff (fun e => negb (Map_has e.1 B) = true)
             (fun e => Map_has e.1 B = false))
    by (intros e; apply negb_true_iff).
  rewrite Map_entries_fold_set.
  - rewrite Map_entries_fold_set; [done| |done]. by apply NoDup_filter_keys.
  - by apply NoDup_filter_keys.
  - intros k (e & -> & [HnB _]%list_elem_of_filter)%list_elem_of_fmap.
    apply Map_has_false. unfold Map_keys.
    rewrite Map_entries_fold_set; [|by apply NoDup_filter_keys|done].
    simpl. intros (e' & Heq & [_ Hin]%list_elem_of_filter)%list_elem_of_fmap.
    apply Map_has_false in HnB. apply HnB. rewrite Heq.
    apply list_elem_of_fmap. by exists e'.
Qed.

Lemma intersect_has A B key :
  keys_unique B ->
  Map_has key (Collection.intersect A B) = Map_has key A && Map_has key B.
Proof.
  intros HB. apply eq_true_iff_eq.
  rewrite andb_true_iff, !Map_has_elem. unfold Map_keys at 1.
  rewrite intersect_entries by done. rewrite list_elem_of_fmap. split.
  - intros (e & -> & [HA Hin]%list_elem_of_filter). split.
    + by apply Map_has_elem.
    + apply list_elem_of_fmap. by exists e.
  - intros [HA (e & -> & Hin)%list_elem_of_fmap].
    exists e. split; [done|]. apply list_elem_of_filter.
    split; [|done]. by apply Map_has_elem.
Qed.

Lemma difference_has A B key :
  keys_unique A -> keys_unique B ->
  Map_has key (Collection.difference A B)
  = xorb (Map_has key A) (Map_has key B).
Proof.
  intros HA HB. apply eq_true_iff_eq.
  rewrite Map_has_elem. unfold Map_keys at 1.
  rewrite difference_entries, fmap_app, elem_of_app by done.
  rewrite !list_elem_of_fmap.
  destruct (Map_has key A) eqn:HkA, (Map_has key B) eqn:HkB; simpl; split;
    try done.
  - intros [(e & -> & [HnA Hin]%list_elem_of_filter)
           |(e & -> & [HnB Hin]%list_elem_of_filter)]; congruence.
  - intros _. right. apply Map_has_elem in HkA.
    apply list_elem_of_fmap in HkA as (e & -> & Hin).
    exists e. split; [done|]. by apply list_elem_of_filter.
  - intros _. left. apply Map_has_elem in HkB.
    apply list_elem_of_fmap in HkB as (e & -> & Hin).
    exists e. split; [done|]. by apply list_elem_of_filter.
  - intros [(e & -> & [HnA Hin]%list_elem_of_filter)
           |(e & -> & [HnB Hin]%list_elem_of_filter)].
    + apply Map_has_false in HkB. destruct HkB.
      apply list_elem_of_fmap. by exists e.
    + apply Map_has_false in HkA. destruct HkA.
      apply list_elem_of_fmap. by exists e.
Qed.

Lemma keys_unique_new es : keys_unique (Map_new es).
Proof.
  unfold Map_new.
  assert (Hgen : forall M, keys_unique M ->
            keys_unique (fold_left (fun M e => Map_set e.1 e.2 M) es M)).
  { induction es as [|e es IH]; intros M HM; [done|].
    simpl. by apply IH, keys_unique_set. }
  apply Hgen. constructor.
Qed.

Lemma keys_unique_fold_set_if (P : K -> bool) es coll :
  keys_unique coll ->
  keys_unique
    (fold_left (fun coll e => if P e.1 then Map_set e.1 e.2 coll else coll)
       es coll).
Proof.
  revert coll. induction es as [|e es IH]; intros coll Hc; [done|].
  simpl. apply IH. destruct (P e.1); [by apply keys_unique_set|done].
Qed.

Lemma keys_unique_intersect A B : keys_unique (Collection.intersect A B).
Proof.
  unfold Collection.intersect.
  apply (keys_unique_fold_set_if (fun k => Map_has k A)). constructor.
Qed.

Lemma keys_unique_difference A B : keys_unique (Collection.difference A B).
Proof.
  unfold Collection.difference.
  apply (keys_unique_fold_set_if (fun k => negb (Map_has k B))).
  apply (keys_unique_fold_set_if (fun k => negb (Map_has k A))). constructor.
Qed.

Lemma same_keys_Permutation A B :
  keys_unique A -> keys_unique B ->
  (forall key, Map_has key A = Map_has key B) ->
  Map_keys A ≡ₚ Map_keys B.
Proof.
  intros HA HB Hhas. apply NoDup_Permutation; [done..|].
  intros key. by rewrite <- !Map_has_elem, Hhas.
Qed.

(** C9.  For collections without duplicate keys: [A.intersect(B)] holds the
    entries of [B] whose key is also in [A] (keys present in both, values
    of the argument), [A.difference(B)] holds the entries of [B] whose key
    is not in [A] followed by the entries of [A] whose key is not in [B]
    (keys present in exactly one, each with the value of the collection
    that holds it), and swapping receiver and argument gives a collection
    with the same set of keys, for both methods. *)
Theorem intersect_difference_keys A B :
  keys_unique A -> keys_unique B ->
  Map_entries (Collection.intersect A B)
  = filter (fun e => Map_has e.1 A = true) (Map_entries B)
  /\ (forall key,
        Map_has key (Collection.intersect A B)
        = Map_has key A && Map_has key B)
  /\ (forall key,
        Map_has key (Collection.intersect A B)
        = Map_has key (Collection.intersect B A))
  /\ Map_keys (Collection.intersect A B) ≡ₚ Map_keys (Collection.intersect B A)
  /\ Map_entries (Collection.difference A B)
     = filter (fun e => Map_has e.1 A = false) (Map_entries B)
       ++ filter (fun e => Map_has e.1 B = false) (Map_entries A)
  /\ (forall key,
        Map_has key (Collection.difference A B)
        = xorb (Map_has key A) (Map_has key B))
  /\ (forall key,
        Map_has key (Collection.difference A B)
        = Map_has key (Collection.difference B A))
  /\ Map_keys (Collection.difference A B)
     ≡ₚ Map_keys (Collection.difference B A).
Proof.
  intros HA HB.
  assert (Hi : forall key,
             Map_has key (Collection.intersect A B)
             = Map_has key (Collection.intersect B A)).
  { intros key. rewrite !intersect_has by done. apply andb_comm. }
  assert (Hd : forall key,
             Map_has key (Collection.difference A B)
             = Map_has key (Collection.difference B A)).
  { intros key. rewrite !difference_has by done. apply xorb_comm. }
  split_and!.
  - by apply intersect_entries.
  - intros key. by apply intersect_has.
  - done.
  - apply same_keys_Permutation; [apply keys_unique_intersect..|done].
  - by apply difference_entries.
  - intros key. by apply difference_has.
  - done.
  - apply same_keys_Permutation; [apply keys_unique_difference..|done].
Qed.
End SetAlgebraFacts.

Lemma intersect_difference_keys_witness :
  Map_entries (Collection.intersect abc cda) = [("c", 30%Z); ("a", 10%Z)]%string
  /\ Map_keys (Collection.intersect abc cda)
     ≡ₚ Map_keys (Collection.intersect cda abc)
  /\ Map_entries (Collection.difference abc cda)
     = [("d", 40%Z); ("b", 2%Z)]%string
  /\ Map_keys (Collection.difference abc cda)
     ≡ₚ Map_keys (Collection.difference cda abc).
Proof.
  destruct (intersect_difference_keys abc cda)
    as (Hi & _ & _ & Hik & Hd & _ & _ & Hdk).
  - keys_unique_by_computation.
  - keys_unique_by_computation.
  - split_and!; [|done| |done].
    + rewrite Hi. by vm_compute.
    + rewrite Hd. by vm_compute.
Defined.

(** ** clone, equals *)

Section CloneFacts.
Context {K V : Type} `{EqDecision K}.
Implicit Types (M : MapData K V) (h : gmap nat (MapData K V)).

Lemma clone_entries M :
  keys_unique M -> Map_entries (Collection.clone M) = Map_entries M.
Proof. intros HM. unfold Collection.clone. by apply Map_entries_new. Qed.

(** Two collections with the same entries are [equals] when every value is
    strictly equal to itself. *)
Lemma equals_same_entries (strict_eq : V -> V -> bool) M M' :
  keys_unique M' -> Map_entries M = Map_entries M' ->
  (forall v, v ∈ Map_values M -> strict_eq v v = true) ->
  Collection.equals strict_eq M M' = true.
Proof.
  intros HM' Hes Hrefl. unfold Collection.equals, Map_size.
  rewrite Hes, Nat.eqb_refl. simpl.
  apply forallb_forall. intros [k v] Hin%list_elem_of_In.
  assert (Hhas : Map_has k M' = true).
  { apply Map_has_elem, list_elem_of_fmap. by exists (k, v). }
  assert (Hget : Map_get k M' = Some v) by by apply Map_get_elem.
  simpl. rewrite Hhas, Hget. simpl. rewrite Hrefl; [done|].
  apply list_elem_of_fmap. exists (k, v). by rewrite Hes.
Qed.

Lemma alloc_fresh M h :
  h !! (Heap.alloc M h).1 = None.
Proof. apply not_elem_of_dom, is_fresh. Qed.

(** A mutation of one object leaves every other object as it is. *)
Lemma mutate_frame (c r : nat) (m : Heap.mutation) h h' :
  Heap.mutate c m h = Some h' -> r <> c -> h' !! r = h !! r.
Proof.
  intros Hm Hr. destruct m as [key value|key]; simpl in Hm.
  - unfold Heap.set in Hm. destruct (h !! c) as [Mc|]; [|done].
    simpl in Hm. injection Hm as <-. by rewrite lookup_insert_ne.
  - unfold Heap.delete in Hm. destruct (h !! c) as [Mc|]; [|done].
    simpl in Hm. destruct (Map_delete key Mc).
    simpl in Hm. injection Hm as <-. by rewrite lookup_insert_ne.
Qed.

Lemma mutate_all_frame (c r : nat) (ms : list Heap.mutation) h h' :
  Heap.mutate_all c ms h = Some h' -> r <> c -> h' !! r = h !! r.
Proof.
  revert h. induction ms as [|m ms IH]; intros h Hms Hr; simpl in Hms.
  - by injection Hms as <-.
  - destruct (Heap.mutate c m h) as [h1|] eqn:Hm; [|done]. simpl in Hms.
    rewrite (IH h1 Hms Hr). by eapply mutate_frame.
Qed.

(** Mutations of an object that is in the heap go through. *)
Lemma mutate_all_defined (c : nat) (ms : list Heap.mutation) h :
  is_Some (h !! c) -> is_Some (Heap.mutate_all c ms h).
Proof.
  revert h. induction ms as [|m ms IH]; intros h [Mc Hc]; simpl; [done|].
  assert (Hm : exists h1, Heap.mutate c m h = Some h1 /\ is_Some (h1 !! c)).
  { destruct m as [key value|key]; simpl.
    - unfold Heap.set. rewrite Hc. simpl. eexists. split; [done|].
      by rewrite lookup_insert_eq.
    - unfold Heap.delete. rewrite Hc. simpl. destruct (Map_delete key Mc).
      simpl. eexists. split; [done|]. by rewrite lookup_insert_eq. }
  destruct Hm as (h1 & -> & Hc1). simpl. by apply IH.
Qed.

(** C7, as amended.  For a collection without duplicate keys, [clone()]
    returns a new object that holds the same entries, values included, in
    the same order, and leaves the receiver as it is; any sequence of [set]
    and [delete] calls on the clone goes through and leaves the receiver as
    it is; and when every value of the collection is strictly equal to
    itself (no value is [NaN]), [clone().equals(receiver)] is true. *)
Theorem clone_independent_copy (strict_eq : V -> V -> bool) h (this : nat) M :
  h !! this = Some M ->
  keys_unique M ->
  (forall v, v ∈ Map_values M -> strict_eq v v = true) ->
  exists c h',
    Heap.clone this h = Some (c, h')
    /\ h !! c = None
    /\ h' !! this = Some M
    /\ (exists M', h' !! c = Some M' /\ Map_entries M' = Map_entries M)
    /\ Heap.equals strict_eq c (Some this) h' = Some true
    /\ (forall ms : list Heap.mutation,
          exists h'',
            Heap.mutate_all c ms h' = Some h'' /\ h'' !! this = Some M).
Proof.
  intros Hthis HM Hrefl.
  pose proof (alloc_fresh (Collection.clone M) h) as Hfresh.
  unfold Heap.clone. rewrite Hthis. simpl.
  unfold Heap.alloc in *. simpl in Hfresh.
  set (c := fresh (dom h)) in *.
  set (h' := <[c := Collection.clone M]> h).
  assert (Hne : c <> this) by (intros Heq; rewrite Heq in Hfresh; congruence).
  assert (Hc' : h' !! c = Some (Collection.clone M))
    by apply lookup_insert_eq.
  assert (Hthis' : h' !! this = Some M)
    by (unfold h'; by rewrite lookup_insert_ne).
  exists c, h'. split_and!; try done.
  - eexists. split; [done|]. by apply clone_entries.
  - unfold Heap.equals. rewrite Hc'. simpl.
    rewrite decide_False by done. rewrite Hthis'. simpl. f_equal.
    apply equals_same_entries; [done|by apply clone_entries|].
    intros v. unfold Map_values. rewrite clone_entries by done. apply Hrefl.
  - intros ms. destruct (mutate_all_defined c ms h') as [h'' Hms]; [by eexists|].
    exists h''. split; [done|].
    rewrite (mutate_all_frame c this ms h' h'' Hms) by done. done.
Qed.
End CloneFacts.

Lemma clone_independent_copy_witness :
  exists c h',
    Heap.clone 0 cba_heap = Some (c, h')
    /\ cba_heap !! c = None
    /\ h' !! 0 = cba_heap !! 0
    /\ Heap.equals Z.eqb c (Some 0) h' = Some true.
Proof.
  destruct (clone_independent_copy Z.eqb cba_heap 0 cba)
    as (c & h' & Hclone & Hnew & Hthis & _ & Heq & _).
  - reflexivity.
  - keys_unique_by_computation.
  - intros v _. apply Z.eqb_refl.
  - exists c, h'. split_and!; try done.
Defined.

(** C7, as stated, fails: the clone of a collection that holds [NaN] is not
    [equals] to it, for [NaN !== NaN]. *)
Lemma clone_equals_counterexample :
  exists c h',
    Heap.clone 0 nan_heap = Some (c, h')
    /\ Heap.equals num_strict_eq c (Some 0) h' = Some false.
Proof. eexists _, _. split; [reflexivity|]. by vm_compute. Qed.

(** ** sort, sorted *)

Section ArraySortFacts.
Context {A : Type} (comparefn : A -> A -> Z).

Lemma sort_insert_Permutation x (l : list A) :
  sort_insert comparefn x l ≡ₚ x :: l.
Proof.
  induction l as [|y l IH]; simpl; [done|].
  destruct (0 <? comparefn y x)%Z; [done|].
  rewrite IH. apply perm_swap.
Qed.

Lemma Array_sort_Permutation (l : list A) : Array_sort comparefn l ≡ₚ l.
Proof.
  unfold Array_sort.
  assert (Hgen : forall acc,
            fold_left (fun sorted x => sort_insert comparefn x sorted) l acc
            ≡ₚ acc ++ l).
  { induction l as [|x l IH]; intros acc; simpl.
    - by rewrite app_nil_r.
    - rewrite IH, sort_insert_Permutation. simpl. apply Permutation_middle. }
  apply Hgen.
Qed.

Lemma sort_insert_HdRel x y (l : list A) :
  in_order comparefn y x -> HdRel (in_order comparefn) y l -> HdRel (in_order comparefn) y (sort_insert comparefn x l).
Proof.
  intros Hyx Hl. destruct l as [|z l]; simpl.
  - by constructor.
  - destruct (0 <? comparefn z x)%Z; constructor; [done|].
    by apply HdRel_inv in Hl.
Qed.

Lemma sort_insert_Sorted x (l : list A) :
  consistent comparefn -> Sorted (in_order comparefn) l -> Sorted (in_order comparefn) (sort_insert comparefn x l).
Proof.
  intros Hc. induction l as [|y l IH]; intros Hl; simpl.
  - by repeat constructor.
  - apply Sorted_inv in Hl as [Hl Hy].
    destruct (Z.ltb_spec 0 (comparefn y x)).
    + constructor; [by constructor|]. constructor. by apply Hc.
    + constructor; [by apply IH|]. by apply sort_insert_HdRel.
Qed.

Lemma Array_sort_Sorted (l : list A) :
  consistent comparefn -> Sorted (in_order comparefn) (Array_sort comparefn l).
Proof.
  intros Hc. unfold Array_sort.
  assert (Hgen : forall acc, Sorted (in_order comparefn) acc ->
            Sorted (in_order comparefn)
              (fold_left (fun sorted x => sort_insert comparefn x sorted) l acc)).
  { induction l as [|x l IH]; intros acc Hacc; simpl; [done|].
    by apply IH, sort_insert_Sorted. }
  apply Hgen. constructor.
Qed.
End ArraySortFacts.

Section SortFacts.
Context {K V : Type} `{EqDecision K}.
Implicit Types (M : MapData K V) (h : gmap nat (MapData K V)).
Implicit Types (cmp : V -> V -> K -> K -> Z).

Lemma sort_entries cmp M :
  keys_unique M ->
  Map_entries (Collection.sort cmp M)
  = Array_sort (Collection.on_entries cmp) (Map_entries M).
Proof.
  intros HM. unfold Collection.sort.
  rewrite Map_entries_fold_set.
  - by rewrite Map_entries_clear.
  - unfold keys_unique, Map_keys in HM.
    by rewrite Array_sort_Permutation.
  - intros k _. apply Map_has_clear.
Qed.

Lemma sorted_entries cmp M :
  keys_unique M ->
  Map_entries (Collection.sorted cmp M)
  = Array_sort (Collection.on_entries cmp) (Map_entries M).
Proof.
  intros HM. unfold Collection.sorted.
  rewrite (sort_entries _ (Collection.clone M)) by apply keys_unique_new.
  by rewrite clone_entries.
Qed.

End SortFacts.


(* ================================================================== *)
(** * Further properties *)

(** ** find, findKey, some, every *)

Section SearchFacts.
Context {K V : Type} `{EqDecision K}.
Implicit Types (this : MapData K V) (iter : list (K * V)).

Lemma find_loop_counted (P : V -> K -> MapData K V -> bool) this iter (n : nat) :
  Collection.find_loop (counted P) this iter n
  = match list_find (fun e => P e.2 e.1 this = true) iter with
    | Some (i, e) => (Some e.2, n + S i)
    | None => (None, n + length iter)
    end.
Proof.
  unfold counted. revert n. induction iter as [|[k v] iter IH]; intros n; simpl.
  - by rewrite Nat.add_0_r.
  - destruct (P v k this) eqn:HP; simpl.
    + f_equal. lia.
    + rewrite IH.
      destruct (list_find _ iter) as [[i e]|]; simpl; f_equal; lia.
Qed.

Lemma findKey_loop_counted (P : V -> K -> MapData K V -> bool) this iter (n : nat) :
  Collection.findKey_loop (counted P) this iter n
  = match list_find (fun e => P e.2 e.1 this = true) iter with
    | Some (i, e) => (Some e.1, n + S i)
    | None => (None, n + length iter)
    end.
Proof.
  unfold counted. revert n. induction iter as [|[k v] iter IH]; intros n; simpl.
  - by rewrite Nat.add_0_r.
  - destruct (P v k this) eqn:HP; simpl.
    + f_equal. lia.
    + rewrite IH.
      destruct (list_find _ iter) as [[i e]|]; simpl; f_equal; lia.
Qed.

(** X1.  [find] returns the value, and [findKey] the key, of the first entry
    in iteration order that the predicate accepts, having called the
    predicate on the entries up to that one and on no later entry; when the
    predicate accepts no entry they return [undefined], having called it on
    every entry. *)
Theorem find_first_accepted (P : V -> K -> MapData K V -> bool) this (n : nat) :
  Collection.find (counted P) this n
  = match list_find (fun e => P e.2 e.1 this = true) (Map_entries this) with
    | Some (i, e) => (Some e.2, n + S i)
    | None => (None, n + Map_size this)
    end
  /\ Collection.findKey (counted P) this n
     = match list_find (fun e => P e.2 e.1 this = true) (Map_entries this) with
       | Some (i, e) => (Some e.1, n + S i)
       | None => (None, n + Map_size this)
       end.
Proof.
  split.
  - apply find_loop_counted.
  - apply findKey_loop_counted.
Qed.

Lemma find_findKey_loop {St : Type}
    (fn : V -> K -> MapData K V -> St -> bool * St) this iter (st : St) :
  Forall (fun e => Map_get e.1 this = Some e.2) iter ->
  Collection.find_loop fn this iter st
  = ((Collection.findKey_loop fn this iter st).1 ≫= (fun k => Map_get k this),
     (Collection.findKey_loop fn this iter st).2).
Proof.
  revert st. induction iter as [|[k v] iter IH]; intros st Hall; simpl; [done|].
  apply Forall_cons in Hall as [Hkv Hall]. simpl in Hkv.
  destruct (fn v k this st) as [[] st']; simpl.
  - by rewrite Hkv.
  - by apply IH.
Qed.

(** X2.  In a collection without duplicate keys, [find(fn)] is the value
    stored under [findKey(fn)] ([undefined] when [findKey] finds no key), and
    both leave the callback in the same state. *)
Theorem find_is_get_findKey {St : Type}
    (fn : V -> K -> MapData K V -> St -> bool * St) this (st : St) :
  keys_unique this ->
  Collection.find fn this st
  = ((Collection.findKey fn this st).1 ≫= (fun k => Map_get k this),
     (Collection.findKey fn this st).2).
Proof.
  intros Hnd. unfold Collection.find, Collection.findKey.
  apply find_findKey_loop. apply Forall_forall. intros [k v] Hin.
  by apply Map_get_elem.
Qed.

Lemma every_some_loop {St : Type}
    (fn : V -> K -> MapData K V -> St -> bool * St) this iter (st : St) :
  Collection.every_loop fn this iter st
  = (negb (Collection.some_loop (negated fn) this iter st).1,
     (Collection.some_loop (negated fn) this iter st).2).
Proof.
  revert st. induction iter as [|[k v] iter IH]; intros st; simpl; [done|].
  unfold negated at 1 3. destruct (fn v k this st) as [[] st']; simpl; [|done].
  apply IH.
Qed.

Lemma some_find_loop {St : Type}
    (fn : V -> K -> MapData K V -> St -> bool * St) this iter (st : St) :
  Collection.some_loop fn this iter st
  = (bool_decide (is_Some (Collection.find_loop fn this iter st).1),
     (Collection.find_loop fn this iter st).2).
Proof.
  revert st. induction iter as [|[k v] iter IH]; intros st; simpl; [done|].
  destruct (fn v k this st) as [[] st']; simpl; [done|apply IH].
Qed.

(** X3.  [every(fn)] is the negation of [some] of the opposite callback, and
    [some(fn)] is true exactly when [find(fn)] finds a value; in both cases
    the two methods call the callback on the same entries.  On a cleared
    collection [some] is false and [every] is true, without a call. *)
Theorem every_some_find {St : Type}
    (fn : V -> K -> MapData K V -> St -> bool * St) this (st : St) :
  Collection.every fn this st
  = (negb (Collection.some (negated fn) this st).1,
     (Collection.some (negated fn) this st).2)
  /\ Collection.some fn this st
     = (bool_decide (is_Some (Collection.find fn this st).1),
        (Collection.find fn this st).2)
  /\ Collection.some fn (Map_clear this) st = (false, st)
  /\ Collection.every fn (Map_clear this) st = (true, st).
Proof.
  split_and!.
  - apply every_some_loop.
  - apply some_find_loop.
  - unfold Collection.some. by rewrite Map_entries_clear.
  - unfold Collection.every. by rewrite Map_entries_clear.
Qed.
End SearchFacts.

Lemma find_is_get_findKey_witness :
  Collection.find (counted (fun v _ _ => (1 <? v)%Z)) abc 0 = (Some 2%Z, 2)
  /\ Collection.findKey (counted (fun v _ _ => (1 <? v)%Z)) abc 0
     = (Some "b"%string, 2).
Proof.
  split; [|by vm_compute].
  rewrite (find_is_get_findKey (counted (fun v _ _ => (1 <? v)%Z)) abc 0).
  - by vm_compute.
  - keys_unique_by_computation.
Defined.

(** ** filter, partition *)

Section FilterFacts.
Context {K V St : Type} `{EqDecision K}.
Implicit Types (this : MapData K V) (es : list (K * V)).
Implicit Types (fn : V -> K -> MapData K V -> St -> bool * St).

Lemma filter_fold fn this es (results : MapData K V) (st : St) :
  fold_left
    (fun '(results, st) e =>
       let '(b, st') := fn e.2 e.1 this st in
       (if b then Map_set e.1 e.2 results else results, st'))
    es (results, st)
  = let '(accepted, _, st_end) := snapshot_calls fn this es st in
    (fold_left (fun M e => Map_set e.1 e.2 M) accepted results, st_end).
Proof.
  revert results st. induction es as [|e es IH]; intros results st; [done|].
  cbn [fold_left snapshot_calls].
  destruct (fn e.2 e.1 this st) as [b st1]. rewrite IH.
  destruct (snapshot_calls fn this es st1) as [[accepted rejected] st2].
  by destruct b.
Qed.

Lemma partition_fold fn this es (yes no : MapData K V) (st : St) :
  fold_left
    (fun '(results, st) e =>
       let '(b, st') := fn e.2 e.1 this st in
       (if b then (Map_set e.1 e.2 results.1, results.2)
        else (results.1, Map_set e.1 e.2 results.2), st'))
    es ((yes, no), st)
  = let '(accepted, rejected, st_end) := snapshot_calls fn this es st in
    ((fold_left (fun M e => Map_set e.1 e.2 M) accepted yes,
      fold_left (fun M e => Map_set e.1 e.2 M) rejected no), st_end).
Proof.
  revert yes no st. induction es as [|e es IH]; intros yes no st; [done|].
  cbn [fold_left snapshot_calls].
  destruct (fn e.2 e.1 this st) as [b st1].
  destruct b; simpl; rewrite IH;
    by destruct (snapshot_calls fn this es st1) as [[accepted rejected] st2].
Qed.

(** The two lists of a snapshot run, of a list with distinct keys, have
    distinct keys and share none. *)
Lemma snapshot_calls_NoDup fn this es (st : St) :
  NoDup (es.*1) ->
  let '(accepted, rejected, _) := snapshot_calls fn this es st in
  NoDup (accepted.*1) /\ NoDup (rejected.*1)
  /\ forall k, k ∈ accepted.*1 -> k ∉ rejected.*1.
Proof.
  intros Hnd. pose proof (snapshot_calls_partition fn this es st) as Hpart.
  destruct (snapshot_calls fn this es st) as [[accepted rejected] st'].
  rewrite Hpart, fmap_app in Hnd. by apply NoDup_app in Hnd as (? & ? & ?).
Qed.

(** [filter] and [partition] in terms of the snapshot run of the callback. *)
Lemma filter_entries fn this (st : St) :
  keys_unique this ->
  let '(accepted, _, st_end) := snapshot_calls fn this (Map_entries this) st in
  Map_entries (Collection.filter fn this st).1 = accepted
  /\ (Collection.filter fn this st).2 = st_end.
Proof.
  intros Hnd. unfold Collection.filter. rewrite filter_fold.
  pose proof (snapshot_calls_NoDup fn this (Map_entries this) st Hnd) as Hsplit.
  destruct (snapshot_calls fn this (Map_entries this) st)
    as [[accepted rejected] st_end].
  destruct Hsplit as (Hyes & _). simpl.
  by rewrite Map_entries_fold_set.
Qed.

Lemma partition_entries fn this (st : St) :
  keys_unique this ->
  let '(accepted, rejected, st_end) :=
    snapshot_calls fn this (Map_entries this) st in
  Map_entries (Collection.partition fn this st).1.1 = accepted
  /\ Map_entries (Collection.partition fn this st).1.2 = rejected
  /\ (Collection.partition fn this st).2 = st_end.
Proof.
  intros Hnd. unfold Collection.partition. rewrite partition_fold.
  pose proof (snapshot_calls_NoDup fn this (Map_entries this) st Hnd) as Hsplit.
  destruct (snapshot_calls fn this (Map_entries this) st)
    as [[accepted rejected] st_end].
  destruct Hsplit as (Hyes & Hno & _). simpl.
  by rewrite !Map_entries_fold_set.
Qed.
End FilterFacts.

Section FilterPredicate.
Context {K V : Type} `{EqDecision K} (P : V -> K -> MapData K V -> bool).
Implicit Types (this : MapData K V) (es : list (K * V)).

(** The callback of a predicate that keeps no state. *)
Lemma snapshot_calls_reading this es :
  snapshot_calls (fun v k M (st : unit) => (P v k M, st)) this es tt
  = (base.filter (fun e => P e.2 e.1 this = true) es,
     base.filter (fun e => P e.2 e.1 this = false) es, tt).
Proof.
  induction es as [|e es IH]; [done|].
  cbn [snapshot_calls]. rewrite IH, !filter_cons.
  destruct (P e.2 e.1 this) eqn:HP.
  - by rewrite decide_True, decide_False by done.
  - by rewrite decide_False, decide_True by done.
Qed.

(** X4.  [filter] of a collection without duplicate keys returns a
    collection that holds exactly the entries the predicate accepts, in the
    order they have in the receiver; it is no larger than the receiver, and
    the predicate accepts every entry of it again. *)
Theorem filter_keeps_accepted this :
  keys_unique this ->
  let result :=
    (Collection.filter (fun v k M (st : unit) => (P v k M, st)) this tt).1 in
  Map_entries result
  = base.filter (fun e => P e.2 e.1 this = true) (Map_entries this)
  /\ Map_size result <= Map_size this
  /\ (forall key, Map_has key result = true -> Map_has key this = true)
  /\ keys_unique result.
Proof.
  intros Hnd result.
  pose proof (filter_entries (fun v k M (st : unit) => (P v k M, st))
                this tt Hnd) as Hres.
  rewrite snapshot_calls_reading in Hres. destruct Hres as [Hres _].
  fold result in Hres.
  split_and!; [done|..].
  - unfold Map_size. rewrite Hres. apply length_filter.
  - intros key. rewrite !Map_has_elem. unfold Map_keys. rewrite Hres.
    intros (e & -> & [_ Hin]%list_elem_of_filter)%list_elem_of_fmap.
    apply list_elem_of_fmap. by exists e.
  - unfold keys_unique, Map_keys. rewrite Hres. by apply NoDup_filter_keys.
Qed.

(** X5.  [partition] of a collection without duplicate keys returns the
    collection of the entries the predicate accepts and the collection of
    the entries it rejects, each in the order of the receiver: the two sizes
    add up to the size of the receiver, and every key of the receiver is in
    exactly one of the two. *)
Theorem partition_splits this :
  keys_unique this ->
  let '(yes, no) :=
    (Collection.partition (fun v k M (st : unit) => (P v k M, st)) this tt).1 in
  Map_entries yes
  = base.filter (fun e => P e.2 e.1 this = true) (Map_entries this)
  /\ Map_entries no
     = base.filter (fun e => P e.2 e.1 this = false) (Map_entries this)
  /\ Map_size yes + Map_size no = Map_size this
  /\ forall key, Map_has key this = xorb (Map_has key yes) (Map_has key no).
Proof.
  intros Hnd.
  pose proof (partition_entries (fun v k M (st : unit) => (P v k M, st))
                this tt Hnd) as Hres.
  pose proof (snapshot_calls_NoDup
                (fun v k M (st : unit) => (P v k M, st)) this
                (Map_entries this) tt Hnd) as Hsplit.
  pose proof (snapshot_calls_partition
                (fun v k M (st : unit) => (P v k M, st)) this
                (Map_entries this) tt) as Hpart.
  rewrite snapshot_calls_reading in *.
  destruct (Collection.partition _ this tt).1 as [yes no]. simpl in Hres.
  destruct Hres as (Hyes & Hno & _). destruct Hsplit as (_ & _ & Hdisj).
  rewrite <- Hyes, <- Hno in *.
  split_and!; [done..| |].
  - unfold Map_size. apply Permutation_length in Hpart.
    rewrite length_app in Hpart. lia.
  - intros key. apply eq_true_iff_eq.
    assert (Hk : key ∈ Map_keys this <-> key ∈ Map_keys yes \/ key ∈ Map_keys no).
    { unfold Map_keys. rewrite Hpart, fmap_app. apply elem_of_app. }
    rewrite Map_has_elem, Hk.
    destruct (Map_has key yes) eqn:Hy; destruct (Map_has key no) eqn:Hn; simpl.
    + apply Map_has_elem in Hy, Hn. by destruct (Hdisj key).
    + apply Map_has_elem in Hy. by split; [|left].
    + apply Map_has_elem in Hn. by split; [|right].
    + apply Map_has_false in Hy, Hn. split; [by intros [?|?]|done].
Qed.
End FilterPredicate.

Lemma filter_keeps_accepted_witness :
  Map_values
    (Collection.filter (fun v (_ : string) (_ : MapData string Z) (st : unit) =>
                          (Z.odd v, st)) abc tt).1
  = [1%Z; 3%Z].
Proof.
  unfold Map_values.
  rewrite (proj1 (filter_keeps_accepted (fun v _ _ => Z.odd v) abc
                    ltac:(keys_unique_by_computation))).
  by vm_compute.
Defined.

Lemma partition_splits_witness :
  let '(even, odd) :=
    (Collection.partition (fun v (_ : string) (_ : MapData string Z) (st : unit) =>
                             (Z.even v, st)) abc tt).1 in
  Map_size even + Map_size odd = 3.
Proof.
  pose proof (partition_splits (fun v _ _ => Z.even v) abc
                ltac:(keys_unique_by_computation)) as Hsplit.
  destruct (Collection.partition _ abc tt).1 as [even odd].
  destruct Hsplit as (_ & _ & Hsize & _). exact Hsize.
Defined.

(** ** sweep and partition *)

Section SweepPartition.
Context {K V St : Type} `{EqDecision K}.

(** X6.  For a callback whose answer does not depend on the collection it is
    handed, and a collection without duplicate keys, [sweep] leaves the
    entries that [partition] puts in its second collection, in the same
    order, returns the size of its first collection, and calls the callback
    as [partition] does. *)
Theorem sweep_leaves_rejected
    (fn : V -> K -> MapData K V -> St -> bool * St)
    (this : MapData K V) (st : St) :
  keys_unique this ->
  (forall v k M1 M2 s, fn v k M1 s = fn v k M2 s) ->
  let '(n, this', st1) := Collection.sweep fn this st in
  let '((yes, no), st2) := Collection.partition fn this st in
  Map_entries this' = Map_entries no
  /\ n = Z.of_nat (Map_size yes)
  /\ st1 = st2.
Proof.
  intros Hnd Hfn. unfold Collection.sweep.
  rewrite (sweep_loop_slots fn this) by (done || lia).
  rewrite drop_0, take_0. simpl.
  pose proof (sweep_slots_snapshot fn this this st) as Hslots.
  pose proof (snapshot_calls_partition fn this (Map_entries this) st) as Hpart.
  pose proof (partition_entries fn this st Hnd) as Hres.
  destruct (sweep_slots fn this this st) as [this' st1].
  destruct (snapshot_calls fn this (Map_entries this) st)
    as [[accepted rejected] st2].
  destruct (Collection.partition fn this st) as [[yes no] st3]. simpl in Hres.
  destruct Hslots as [Hkept <-]. destruct Hres as (Hyes & Hno & <-).
  split_and!; [congruence| |done].
  unfold Map_size. rewrite Hkept, Hyes. apply Permutation_length in Hpart.
  rewrite length_app in Hpart. lia.
Qed.
End SweepPartition.

Lemma sweep_leaves_rejected_witness :
  Map_entries (Collection.sweep is_two abc tt).1.2
  = Map_entries (Collection.partition is_two abc tt).1.2.
Proof.
  pose proof (sweep_leaves_rejected is_two abc tt
                ltac:(keys_unique_by_computation)
                ltac:(reflexivity)) as Hsweep.
  destruct (Collection.sweep is_two abc tt) as [[n this'] st1].
  destruct (Collection.partition is_two abc tt) as [[yes no] st2].
  by destruct Hsweep as (Hentries & _).
Defined.

(** ** map, mapValues *)

Section TransformFacts.
Context {K V T St : Type} `{EqDecision K}.
Implicit Types (this : MapData K V) (es : list (K * V)).
Implicit Types (fn : V -> K -> MapData K V -> St -> T * St).

Lemma calls_in_order_length fn this es (st : St) :
  length (calls_in_order fn this es st).1 = length es.
Proof.
  revert st. induction es as [|e es IH]; intros st; [done|].
  cbn [calls_in_order]. destruct (fn e.2 e.1 this st) as [y st1].
  specialize (IH st1). destruct (calls_in_order fn this es st1) as [ys st2].
  simpl in *. by rewrite IH.
Qed.

(** While the iterator has entries left, a call of the mapping function of
    [map] is a call of [fn] on the next entry. *)
Lemma map_loop_calls fn this (n : nat) es (st : St) :
  n <= length es ->
  Array_from_loop n (Collection.map_next fn this) (es, st)
  = let '(ys, st') := calls_in_order fn this (take n es) st in
    (Return <$> ys, (drop n es, st')).
Proof.
  revert es st. induction n as [|n IH]; intros es st Hn.
  - by rewrite take_0, drop_0.
  - destruct es as [|[k v] es]; [simpl in Hn; lia|].
    cbn [Array_from_loop Collection.map_next next take drop calls_in_order fst snd].
    destruct (fn v k this st) as [y st1].
    rewrite IH by (simpl in Hn; lia).
    by destruct (calls_in_order fn this (take n es) st1) as [ys st2].
Qed.

Lemma all_returned_Return (ys : list T) :
  Collection.all_returned (Return <$> ys) = Return ys.
Proof.
  induction ys as [|y ys IH]; [done|]. rewrite fmap_cons. simpl. by rewrite IH.
Qed.

Lemma map_calls fn this (st : St) :
  (Z.of_nat (Map_size this) <= 2 ^ 53 - 1)%Z ->
  Collection.map fn this st
  = (Return (calls_in_order fn this (Map_entries this) st).1,
     (calls_in_order fn this (Map_entries this) st).2).
Proof.
  intros Hsize. unfold Collection.map, Array_from, of_nat.
  rewrite ToLength_of_Z, Nat2Z.id by done.
  rewrite map_loop_calls by done.
  unfold Map_size. rewrite firstn_all.
  destruct (calls_in_order fn this (Map_entries this) st) as [ys st'].
  by rewrite all_returned_Return.
Qed.

(** X7.  [map] calls the function once on each entry, in iteration order,
    handing it the value, the key and the collection, and returns the array
    of the results in that order; its internal iterator is never read past
    its end, so [map] throws nothing of its own. *)
Theorem map_calls_in_order fn this (st : St) :
  (Z.of_nat (Map_size this) <= 2 ^ 53 - 1)%Z ->
  let '(ys, st') := calls_in_order fn this (Map_entries this) st in
  Collection.map fn this st = (Return ys, st')
  /\ length ys = Map_size this.
Proof.
  intros Hsize. pose proof (map_calls fn this st Hsize) as Hmap.
  pose proof (calls_in_order_length fn this (Map_entries this) st) as Hlen.
  by destruct (calls_in_order fn this (Map_entries this) st) as [ys st'].
Qed.

Lemma mapValues_fold fn this es (coll : MapData K T) (st : St) :
  fold_left
    (fun '(coll, st) e =>
       let '(y, st') := fn e.2 e.1 this st in (Map_set e.1 y coll, st'))
    es (coll, st)
  = (fold_left (fun M e => Map_set e.1 e.2 M)
       (zip (es.*1) (calls_in_order fn this es st).1) coll,
     (calls_in_order fn this es st).2).
Proof.
  revert coll st. induction es as [|e es IH]; intros coll st; [done|].
  cbn [fold_left calls_in_order]. destruct (fn e.2 e.1 this st) as [y st1].
  rewrite IH. by destruct (calls_in_order fn this es st1) as [ys st2].
Qed.

Lemma mapValues_entries fn this (st : St) :
  keys_unique this ->
  Map_entries (Collection.mapValues fn this st).1
  = zip (Map_keys this) (calls_in_order fn this (Map_entries this) st).1
  /\ (Collection.mapValues fn this st).2
     = (calls_in_order fn this (Map_entries this) st).2.
Proof.
  intros Hnd. unfold Collection.mapValues. rewrite mapValues_fold. simpl.
  split; [|done]. rewrite Map_entries_fold_set; [done| |done].
  rewrite fst_zip; [done|].
  rewrite calls_in_order_length, length_fmap. done.
Qed.

(** X8.  [mapValues] of a collection without duplicate keys returns a
    collection with the keys of the receiver, in the same order, each with
    the result of the function on its entry; the values of that collection,
    in order, are the array that [map] returns for the same function, and
    both call the function in the same way. *)
Theorem mapValues_keeps_keys fn this (st : St) :
  keys_unique this ->
  (Z.of_nat (Map_size this) <= 2 ^ 53 - 1)%Z ->
  let '(coll, st') := Collection.mapValues fn this st in
  Map_keys coll = Map_keys this
  /\ Map_entries coll
     = zip (Map_keys this) (calls_in_order fn this (Map_entries this) st).1
  /\ Collection.map fn this st = (Return (Collection.toJSON coll), st')
  /\ Map_size coll = Map_size this.
Proof.
  intros Hnd Hsize. pose proof (mapValues_entries fn this st Hnd) as [Hes Hst].
  pose proof (calls_in_order_length fn this (Map_entries this) st) as Hlen.
  rewrite map_calls by done.
  destruct (Collection.mapValues fn this st) as [coll st']. simpl in Hes, Hst.
  assert (Hkeys : Map_keys coll = Map_keys this).
  { unfold Map_keys at 1. rewrite Hes. apply fst_zip.
    rewrite Hlen. unfold Map_keys. by rewrite length_fmap. }
  split_and!; [done|done| |].
  - unfold Collection.toJSON, Map_values. rewrite Hes, snd_zip, Hst; [done|].
    rewrite Hlen. unfold Map_keys. by rewrite length_fmap.
  - by rewrite <- !Map_size_keys, Hkeys.
Qed.
End TransformFacts.

Lemma map_calls_in_order_witness :
  Collection.map (counted (fun v (k : string) (_ : MapData string Z) => (k, (v * 2)%Z)))
    abc 0
  = (Return [("a", 2%Z); ("b", 4%Z); ("c", 6%Z)]%string, 3).
Proof.
  pose proof (map_calls_in_order
                (counted (fun v (k : string) (_ : MapData string Z) => (k, (v * 2)%Z)))
                abc 0 ltac:(by vm_compute)) as Hmap.
  vm_compute calls_in_order in Hmap. exact (proj1 Hmap).
Defined.

Lemma mapValues_keeps_keys_witness :
  let '(coll, n) :=
    Collection.mapValues (counted (fun v (_ : string) (_ : MapData string Z) => (v + 1)%Z))
      abc 0 in
  Map_keys coll = ["a"; "b"; "c"]%string /\ Map_size coll = 3.
Proof.
  pose proof (mapValues_keeps_keys
                (counted (fun v (_ : string) (_ : MapData string Z) => (v + 1)%Z))
                abc 0 ltac:(keys_unique_by_computation) ltac:(by vm_compute))
    as Hmap.
  destruct (Collection.mapValues _ abc 0) as [coll n].
  destruct Hmap as (Hkeys & _ & _ & Hsize). split; [exact Hkeys|exact Hsize].
Defined.

(** ** concat, flatMap *)

Section ConcatFacts.
Context {K V : Type} `{EqDecision K}.
Implicit Types (M B this : MapData K V) (es : list (K * V)).
Implicit Types (collections : list (MapData K V)).

Lemma Map_has_fold_set key es M :
  Map_has key (fold_left (fun M e => Map_set e.1 e.2 M) es M)
  = Map_has key M || bool_decide (key ∈ es.*1).
Proof.
  revert M. induction es as [|e es IH]; intros M.
  - cbn [fold_left]. rewrite fmap_nil, bool_decide_eq_false_2.
    + by rewrite orb_false_r.
    + apply not_elem_of_nil.
  - cbn [fold_left]. rewrite IH, Map_has_set, fmap_cons.
    apply eq_true_iff_eq.
    rewrite !orb_true_iff, !bool_decide_eq_true, elem_of_cons. split.
    + intros [[->|?]|?]; [right; by left|by left|right; by right].
    + intros [?|[->|?]]; [left; by right|left; by left|by right].
Qed.

Lemma Map_has_fold_entries key B M :
  Map_has key (fold_left (fun M e => Map_set e.1 e.2 M) (Map_entries B) M)
  = Map_has key M || Map_has key B.
Proof.
  rewrite Map_has_fold_set. f_equal. apply eq_true_iff_eq.
  by rewrite bool_decide_eq_true, Map_has_elem.
Qed.

Lemma Map_get_fold_set_other key es M :
  key ∉ es.*1 ->
  Map_get key (fold_left (fun M e => Map_set e.1 e.2 M) es M) = Map_get key M.
Proof.
  revert M. induction es as [|e es IH]; intros M Hnot; [done|].
  rewrite fmap_cons in Hnot. apply not_elem_of_cons in Hnot as [Hne Hnot].
  cbn [fold_left]. rewrite IH, Map_get_set by done. by rewrite decide_False.
Qed.

Lemma Map_get_fold_set_elem key v es M :
  NoDup (es.*1) -> (key, v) ∈ es ->
  Map_get key (fold_left (fun M e => Map_set e.1 e.2 M) es M) = Some v.
Proof.
  revert M. induction es as [|e es IH]; intros M Hnd Hin.
  - by apply elem_of_nil in Hin.
  - rewrite fmap_cons in Hnd. apply NoDup_cons in Hnd as [Hfresh Hnd].
    cbn [fold_left]. apply elem_of_cons in Hin as [<-|Hin].
    + rewrite Map_get_fold_set_other by done.
      rewrite Map_get_set. by rewrite decide_True.
    + by apply IH.
Qed.

Lemma Map_get_fold_entries key B M :
  keys_unique B ->
  Map_get key (fold_left (fun M e => Map_set e.1 e.2 M) (Map_entries B) M)
  = match Map_get key B with Some v => Some v | None => Map_get key M end.
Proof.
  intros Hnd. destruct (Map_get key B) as [v|] eqn:Hget.
  - apply Map_get_fold_set_elem; [done|]. by apply Map_get_elem.
  - apply Map_get_fold_set_other. apply Map_has_false.
    destruct (Map_has key B) eqn:Hhas; [|done].
    apply Map_get_has in Hhas as [v Hv]. congruence.
Qed.

Lemma keys_unique_fold_set es M :
  keys_unique M ->
  keys_unique (fold_left (fun M e => Map_set e.1 e.2 M) es M).
Proof.
  revert M. induction es as [|e es IH]; intros M Hnd; [done|].
  cbn [fold_left]. by apply IH, keys_unique_set.
Qed.

Lemma Map_keys_fold_set_prefix es M :
  Map_keys M `prefix_of` Map_keys (fold_left (fun M e => Map_set e.1 e.2 M) es M).
Proof.
  revert M. induction es as [|e es IH]; intros M; [done|].
  cbn [fold_left]. etrans; [|apply IH]. rewrite Map_keys_set.
  destruct (Map_has e.1 M); [done|]. by apply prefix_app_r.
Qed.

(** A map none of whose slots is empty is the map built from its entries. *)
Lemma Map_set_compact key v M :
  Forall is_Some M -> Forall is_Some (Map_set key v M).
Proof.
  induction M as [|[[k w]|] M IH]; intros Hall; simpl.
  - by repeat constructor.
  - apply Forall_cons in Hall as [_ Hall].
    destruct (decide (k = key)); constructor; eauto.
  - apply Forall_cons in Hall as [[? [=]] _].
Qed.

Lemma fold_set_compact es M :
  Forall is_Some M ->
  Forall is_Some (fold_left (fun M e => Map_set e.1 e.2 M) es M).
Proof.
  revert M. induction es as [|e es IH]; intros M Hall; [done|].
  cbn [fold_left]. by apply IH, Map_set_compact.
Qed.

Lemma Map_set_snoc key v (pre : list (K * V)) :
  key ∉ pre.*1 ->
  Map_set key v (Some <$> pre) = Some <$> (pre ++ [(key, v)]).
Proof.
  induction pre as [|[k w] pre IH]; intros Hnot; [done|].
  rewrite fmap_cons in Hnot. apply not_elem_of_cons in Hnot as [Hne Hnot].
  simpl. rewrite decide_False by done. f_equal. by apply IH.
Qed.

Lemma fold_set_snoc es (pre : list (K * V)) :
  NoDup ((pre ++ es).*1) ->
  fold_left (fun M e => Map_set e.1 e.2 M) es (Some <$> pre)
  = Some <$> (pre ++ es).
Proof.
  revert pre. induction es as [|[k v] es IH]; intros pre Hnd.
  - by rewrite app_nil_r.
  - cbn [fold_left]. rewrite (cons_middle _ pre es), app_assoc in Hnd |- *.
    rewrite Map_set_snoc; [by apply IH|].
    rewrite !fmap_app in Hnd. apply NoDup_app in Hnd as [Hnd _].
    apply NoDup_app in Hnd as (_ & Hdisj & _). intros Hin.
    apply (Hdisj k Hin). simpl. by apply list_elem_of_singleton.
Qed.

Lemma clone_compact M :
  Forall is_Some M -> keys_unique M -> Collection.clone M = M.
Proof.
  intros Hall Hnd. unfold Collection.clone, Map_new.
  rewrite (fold_set_snoc _ []) by done. simpl.
  clear Hnd. induction M as [|[e|] M IH]; [done| |].
  - apply Forall_cons in Hall as [_ Hall].
    rewrite Map_entries_cons_Some, fmap_cons. f_equal. by apply IH.
  - apply Forall_cons in Hall as [[? [=]] _].
Qed.

Lemma concat_fold collections M :
  fold_left
    (fun newColl coll =>
       fold_left (fun newColl e => Map_set e.1 e.2 newColl)
         (Map_entries coll) newColl)
    collections M
  = fold_left (fun M e => Map_set e.1 e.2 M)
      (concat (Map_entries <$> collections)) M.
Proof.
  revert M. induction collections as [|B Bs IH]; intros M; [done|].
  cbn [fold_left]. rewrite IH, fmap_cons. simpl concat.
  by rewrite fold_left_app.
Qed.

Lemma concat_compact collections this :
  Forall is_Some (Collection.concat collections this)
  /\ keys_unique (Collection.concat collections this).
Proof.
  unfold Collection.concat. rewrite concat_fold. split.
  - apply fold_set_compact. unfold Collection.clone, Map_new.
    by apply fold_set_compact.
  - apply keys_unique_fold_set, keys_unique_new.
Qed.

Lemma concat_has collections M key :
  Map_has key
    (fold_left
       (fun newColl coll =>
          fold_left (fun newColl e => Map_set e.1 e.2 newColl)
            (Map_entries coll) newColl)
       collections M)
  = Map_has key M || existsb (Map_has key) collections.
Proof.
  revert M. induction collections as [|B Bs IH]; intros M.
  - simpl. by rewrite orb_false_r.
  - cbn [fold_left existsb]. by rewrite IH, Map_has_fold_entries, orb_assoc.
Qed.

Lemma concat_get collections M key :
  Forall keys_unique collections ->
  Map_get key
    (fold_left
       (fun newColl coll =>
          fold_left (fun newColl e => Map_set e.1 e.2 newColl)
            (Map_entries coll) newColl)
       collections M)
  = last_holder key collections (Map_get key M).
Proof.
  revert M. induction collections as [|B Bs IH]; intros M Hall; [done|].
  apply Forall_cons in Hall as [HB Hall].
  unfold last_holder. cbn [fold_left]. rewrite IH by done.
  by rewrite Map_get_fold_entries.
Qed.

Lemma clone_has this key :
  Map_has key (Collection.clone this) = Map_has key this.
Proof.
  unfold Collection.clone, Map_new. by rewrite Map_has_fold_entries.
Qed.

Lemma clone_get this key :
  keys_unique this -> Map_get key (Collection.clone this) = Map_get key this.
Proof.
  intros Hnd. unfold Collection.clone, Map_new.
  rewrite Map_get_fold_entries by done. by destruct (Map_get key this).
Qed.

(** X9.  In the collection that [concat] returns, a key is present exactly
    when the receiver or one of the arguments has it, and its value is the one
    of the last argument that has the key, or the receiver's when no argument
    has it.  The keys of the receiver come first, in their order. *)
Theorem concat_last_wins collections this :
  keys_unique this -> Forall keys_unique collections ->
  let newColl := Collection.concat collections this in
  (forall key,
     Map_has key newColl
     = Map_has key this || existsb (Map_has key) collections)
  /\ (forall key,
        Map_get key newColl = last_holder key collections (Map_get key this))
  /\ Map_keys this `prefix_of` Map_keys newColl
  /\ keys_unique newColl.
Proof.
  intros Hnd Hall newColl. subst newColl. split_and!.
  - intros key. unfold Collection.concat. by rewrite concat_has, clone_has.
  - intros key. unfold Collection.concat.
    by rewrite concat_get, clone_get.
  - unfold Collection.concat. rewrite concat_fold.
    etrans; [|apply Map_keys_fold_set_prefix].
    unfold Map_keys. by rewrite clone_entries.
  - apply concat_compact.
Qed.

(** X10.  Concatenating in two steps is concatenating at once:
    [this.concat(...bs).concat(...cs)] and [this.concat(...bs, ...cs)] return
    collections with the same slots; without arguments [concat] returns what
    [clone] does. *)
Theorem concat_in_steps (bs cs : list (MapData K V)) this :
  Collection.concat cs (Collection.concat bs this)
  = Collection.concat (bs ++ cs) this
  /\ Collection.concat [] (Collection.concat bs this)
     = Collection.concat bs this.
Proof.
  destruct (concat_compact bs this) as [Hall Hnd].
  unfold Collection.concat at 1 3 4. rewrite clone_compact by done.
  split; [|done]. unfold Collection.concat. by rewrite fold_left_app.
Qed.
End ConcatFacts.

Lemma concat_last_wins_witness :
  Map_get "a"%string (Collection.concat [cda; cba] abc) = Some 3%Z
  /\ Map_get "d"%string (Collection.concat [cda; cba] abc) = Some 40%Z
  /\ Map_keys (Collection.concat [cda; cba] abc) = ["a"; "b"; "c"; "d"]%string.
Proof.
  pose proof (concat_last_wins [cda; cba] abc
                ltac:(keys_unique_by_computation)
                ltac:(repeat constructor; keys_unique_by_computation))
    as (_ & Hget & _).
  rewrite !Hget. by vm_compute.
Defined.

Section FlatMapFacts.
Context {K V T St : Type} `{EqDecision K}.

(** X11.  [flatMap] calls the function once on each entry, in order, and
    returns the collections it produces merged into a new one: a key is
    present when one of them has it, with the value of the last one that
    has it. *)
Theorem flatMap_merges (fn : V -> K -> MapData K V -> St -> MapData K T * St)
    (this : MapData K V) (st : St) :
  (Z.of_nat (Map_size this) <= 2 ^ 53 - 1)%Z ->
  Forall keys_unique (calls_in_order fn this (Map_entries this) st).1 ->
  let '(collections, st') := calls_in_order fn this (Map_entries this) st in
  exists result,
    Collection.flatMap fn this st = (Return result, st')
    /\ (forall key, Map_has key result = existsb (Map_has key) collections)
    /\ (forall key, Map_get key result = last_holder key collections None)
    /\ keys_unique result.
Proof.
  intros Hsize Hall. unfold Collection.flatMap. rewrite map_calls by done.
  destruct (calls_in_order fn this (Map_entries this) st) as [collections st'].
  simpl in *. eexists. split; [done|].
  split_and!.
  - intros key. unfold Collection.concat. by rewrite concat_has.
  - intros key. unfold Collection.concat. by rewrite concat_get.
  - apply concat_compact.
Qed.
End FlatMapFacts.

Lemma flatMap_merges_witness :
  exists result,
    Collection.flatMap
      (fun v (k : string) (_ : MapData string Z) (st : unit) =>
         (Map_new [(k, v); ("z"%string, v)], st)) abc tt
    = (Return result, tt)
    /\ Map_get "z"%string result = Some 3%Z
    /\ Map_has "b"%string result = true.
Proof.
  pose proof (flatMap_merges
                (fun v (k : string) (_ : MapData string Z) (st : unit) =>
                   (Map_new [(k, v); ("z"%string, v)], st)) abc tt
                ltac:(by vm_compute)
                ltac:(repeat constructor; keys_unique_by_computation))
    as Hflat.
  vm_compute calls_in_order in Hflat.
  destruct Hflat as (result & Hres & Hhas & Hget & _).
  exists result. rewrite Hget, Hhas. split; [exact Hres|]. by vm_compute.
Defined.

(** ** reverse *)

Section ReverseFacts.
Context {K V : Type} `{EqDecision K}.
Implicit Types (M this : MapData K V).

Lemma rev_reverse {A : Type} (l : list A) : rev l = reverse l.
Proof. apply rev_alt. Qed.

(** Two maps without duplicate keys that hold the same entries, in whatever
    order, answer [get] alike. *)
Lemma same_entries_get M M' key :
  keys_unique M -> keys_unique M' ->
  Map_entries M ≡ₚ Map_entries M' ->
  Map_get key M = Map_get key M'.
Proof.
  intros Hnd Hnd' Hperm. apply option_eq. intros v.
  rewrite !Map_get_elem by done. by rewrite Hperm.
Qed.

Lemma reverse_entries this :
  keys_unique this ->
  Map_entries (Collection.reverse this) = rev (Map_entries this).
Proof.
  intros Hnd. unfold Collection.reverse.
  rewrite Map_entries_fold_set, Map_entries_clear; [done| |].
  - by rewrite rev_reverse, fmap_reverse, reverse_Permutation.
  - intros k _. apply Map_has_clear.
Qed.

Lemma keys_unique_reverse this : keys_unique (Collection.reverse this).
Proof.
  unfold Collection.reverse. apply keys_unique_fold_set.
  unfold keys_unique, Map_keys. rewrite Map_entries_clear. constructor.
Qed.

(** X12.  [reverse] of a collection without duplicate keys leaves it with the
    same entries in the opposite order: what was first is last and what was
    last is first, every key keeps its value, and reversing again gives back
    the original order. *)
Theorem reverse_reverses this :
  keys_unique this ->
  Map_entries (Collection.reverse this) = rev (Map_entries this)
  /\ Map_entries (Collection.reverse (Collection.reverse this))
     = Map_entries this
  /\ Collection.first None (Collection.reverse this) = Collection.last None this
  /\ Collection.last None (Collection.reverse this) = Collection.first None this
  /\ (forall key,
        Map_get key (Collection.reverse this) = Map_get key this).
Proof.
  intros Hnd. pose proof (reverse_entries this Hnd) as Hrev.
  pose proof (keys_unique_reverse this) as Hnd'.
  split_and!.
  - done.
  - by rewrite reverse_entries, Hrev, rev_involutive.
  - unfold Collection.first, Collection.last.
    rewrite first_of_none, last_of_none. unfold Map_values. rewrite Hrev.
    by rewrite rev_reverse, fmap_reverse, <- head_lookup, head_reverse.
  - unfold Collection.first, Collection.last.
    rewrite first_of_none, last_of_none. unfold Map_values. rewrite Hrev.
    by rewrite rev_reverse, fmap_reverse, last_reverse, head_lookup.
  - intros key. apply same_entries_get; [done..|].
    by rewrite Hrev, rev_reverse, reverse_Permutation.
Qed.
End ReverseFacts.

Lemma reverse_reverses_witness :
  Map_entries (Collection.reverse abc) = [("c", 3%Z); ("b", 2%Z); ("a", 1%Z)]%string
  /\ Collection.first None (Collection.reverse abc) = One (Some 3%Z).
Proof.
  pose proof (reverse_reverses abc ltac:(keys_unique_by_computation))
    as (Hrev & _ & Hfirst & _).
  rewrite Hrev, Hfirst. by vm_compute.
Defined.

(** ** equals *)

Section EqualsFacts.
Context {K V : Type} `{EqDecision K} (strict_eq : V -> V -> bool).
Implicit Types (A B : MapData K V).

(** What [equals] tests, past the tests on the references: the sizes are the
    same and every entry of the receiver has its key in the argument, with a
    strictly equal value. *)
Lemma equals_true A B :
  Collection.equals strict_eq A B = true
  <-> Map_size A = Map_size B
      /\ forall e, e ∈ Map_entries A ->
           exists w, Map_get e.1 B = Some w /\ strict_eq e.2 w = true.
Proof.
  unfold Collection.equals.
  destruct (Nat.eqb_spec (Map_size A) (Map_size B)) as [Hsize|Hsize]; simpl.
  - rewrite forallb_forall. split.
    + intros Hall. split; [done|]. intros e He%list_elem_of_In.
      specialize (Hall e He).
      destruct (Map_get e.1 B) as [w|] eqn:Hget; simpl in Hall.
      * exists w. split; [done|].
        rewrite negb_true_iff, orb_false_iff in Hall.
        destruct Hall as [_ Hneg]. by apply negb_false_iff in Hneg.
      * by rewrite orb_true_r in Hall.
    + intros [_ Hall] e He%list_elem_of_In.
      destruct (Hall e He) as (w & Hget & Heq). rewrite Hget. simpl.
      assert (Hhas : Map_has e.1 B = true) by (apply Map_get_has; eauto).
      by rewrite Hhas, Heq.
  - split; [done|]. by intros [? _].
Qed.

Lemma equals_same_keys A B :
  keys_unique A ->
  Collection.equals strict_eq A B = true -> Map_keys A ≡ₚ Map_keys B.
Proof.
  intros Hnd [Hsize Hall]%equals_true.
  apply submseteq_length_Permutation.
  - apply NoDup_submseteq; [done|]. intros k Hk.
    apply list_elem_of_fmap in Hk as (e & -> & He).
    destruct (Hall e He) as (w & Hget & _).
    apply Map_has_elem, Map_get_has. eauto.
  - rewrite !Map_size_keys. lia.
Qed.

Lemma equals_swap A B :
  keys_unique A -> keys_unique B ->
  (forall x y, strict_eq x y = strict_eq y x) ->
  Collection.equals strict_eq A B = true ->
  Collection.equals strict_eq B A = true.
Proof.
  intros HndA HndB Hsym Heq. pose proof (equals_same_keys A B HndA Heq) as Hkeys.
  apply equals_true in Heq as [Hsize Hall]. apply equals_true.
  split; [done|]. intros [k w] He. simpl.
  assert (Hk : k ∈ Map_keys A).
  { rewrite Hkeys. apply list_elem_of_fmap. by exists (k, w). }
  apply list_elem_of_fmap in Hk as ([k' v] & Hkk & Hv). simpl in Hkk. subst k'.
  destruct (Hall (k, v) Hv) as (w' & Hget & Hvw). simpl in Hget, Hvw.
  apply (Map_get_elem k w B HndB) in He.
  assert (w' = w) by congruence. subst w'.
  exists v. split; [by apply Map_get_elem|]. by rewrite Hsym.
Qed.

(** X13.  [equals] is symmetric on collections without duplicate keys, as
    [===] is: [a.equals(b)] and [b.equals(a)] give the same answer.  When it
    answers [true] the two collections have the same keys, in whatever
    order. *)
Theorem equals_symmetric A B :
  keys_unique A -> keys_unique B ->
  (forall x y, strict_eq x y = strict_eq y x) ->
  Collection.equals strict_eq A B = Collection.equals strict_eq B A
  /\ (Collection.equals strict_eq A B = true -> Map_keys A ≡ₚ Map_keys B).
Proof.
  intros HndA HndB Hsym. split.
  - apply eq_true_iff_eq. split; by apply equals_swap.
  - by apply equals_same_keys.
Qed.

(** X14.  Where [===] on the values is equality (no value is [NaN]),
    [equals] on collections without duplicate keys is true exactly when the
    two hold the same entries, whatever their order. *)
Theorem equals_same_entries_any_order A B :
  keys_unique A -> keys_unique B ->
  (forall x y, strict_eq x y = true <-> x = y) ->
  Collection.equals strict_eq A B = true
  <-> Map_entries A ≡ₚ Map_entries B.
Proof.
  intros HndA HndB Hrefl. rewrite equals_true. split.
  - intros [Hsize Hall]. apply submseteq_length_Permutation; [|unfold Map_size in *; lia].
    apply NoDup_submseteq; [by apply (NoDup_fmap_1 fst)|].
    intros [k v] He. destruct (Hall _ He) as (w & Hget & Hvw).
    simpl in Hget, Hvw. apply Hrefl in Hvw as <-. by apply Map_get_elem.
  - intros Hperm. split; [unfold Map_size; by rewrite Hperm|].
    intros [k v] He. exists v. simpl. split; [|by apply Hrefl].
    apply Map_get_elem; [done|]. by rewrite <- Hperm.
Qed.
End EqualsFacts.

Lemma equals_symmetric_witness :
  Collection.equals Z.eqb abc (Collection.reverse abc) = true
  /\ Collection.equals Z.eqb (Collection.reverse abc) abc = true.
Proof.
  split; [by vm_compute|].
  rewrite <- (proj1 (equals_symmetric Z.eqb abc (Collection.reverse abc)
                       ltac:(keys_unique_by_computation)
                       ltac:(keys_unique_by_computation) Z.eqb_sym)).
  by vm_compute.
Defined.

Lemma equals_same_entries_any_order_witness :
  Collection.equals Z.eqb abc (Collection.reverse abc) = true
  /\ Collection.equals Z.eqb abc cba = false.
Proof.
  split; [|by vm_compute].
  apply (equals_same_entries_any_order Z.eqb abc (Collection.reverse abc)
           ltac:(keys_unique_by_computation)
           ltac:(keys_unique_by_computation) Z.eqb_eq).
  apply (bool_decide_unpack _). by vm_compute.
Defined.

(** ** sort on an ordered collection, the default comparator *)

Section SortOrderedFacts.
Context {A : Type} (comparefn : A -> A -> Z).

Lemma sort_insert_last x (l : list A) :
  Forall (fun y => in_order comparefn y x) l ->
  sort_insert comparefn x l = l ++ [x].
Proof.
  induction l as [|y l IH]; intros Hall; [done|].
  apply Forall_cons in Hall as [Hy Hall]. unfold in_order in Hy. simpl.
  destruct (Z.ltb_spec 0 (comparefn y x)); [lia|]. by rewrite IH.
Qed.

Lemma Array_sort_loop_ordered (l pre : list A) :
  StronglySorted (in_order comparefn) (pre ++ l) ->
  fold_left (fun sorted x => sort_insert comparefn x sorted) l pre = pre ++ l.
Proof.
  revert pre. induction l as [|x l IH]; intros pre Hsorted.
  - by rewrite app_nil_r.
  - cbn [fold_left]. rewrite sort_insert_last.
    + rewrite IH; rewrite <- app_assoc; done.
    + apply Forall_forall. intros y Hy.
      apply (StronglySorted_app_1_elem_of _ _ _ y x Hsorted); [done|].
      by left.
Qed.

(** Sorting leaves an ordered array as it is. *)
Lemma Array_sort_ordered (l : list A) :
  StronglySorted (in_order comparefn) l -> Array_sort comparefn l = l.
Proof. intros Hsorted. by apply (Array_sort_loop_ordered l []). Qed.
End SortOrderedFacts.

Section SortAgainFacts.
Context {K V : Type} `{EqDecision K}.
Implicit Types (this : MapData K V) (cmp : V -> V -> K -> K -> Z).

Lemma keys_unique_sort cmp this : keys_unique (Collection.sort cmp this).
Proof.
  unfold Collection.sort. apply keys_unique_fold_set.
  unfold keys_unique, Map_keys. rewrite Map_entries_clear. constructor.
Qed.


(** The default comparator answers 1 exactly on a greater first value, so it
    is consistent when [>] is asymmetric. *)
Lemma defaultSort_consistent (gt strict_eq : V -> V -> bool) :
  (forall a b, gt a b = true -> gt b a = false) ->
  consistent (Collection.on_entries (Collection.defaultSort (K:=K) gt strict_eq)).
Proof.
  intros Hasym [k1 a] [k2 b]. unfold Collection.on_entries, Collection.defaultSort.
  simpl. destruct (gt a b) eqn:Hab.
  - rewrite (Hasym a b Hab). intros _. destruct (strict_eq b a); lia.
  - destruct (strict_eq a b); lia.
Qed.

End SortAgainFacts.



(** ** at, keyAt and the ends of the collection *)

Section PositionFacts.
Context {K V : Type} `{EqDecision K}.
Implicit Types (this : MapData K V).

Lemma Array_at_fmap {A B : Type} (f : A -> B) (index : number) (arr : list A) :
  Array_at index (f <$> arr) = f <$> Array_at index arr.
Proof.
  unfold Array_at. rewrite length_fmap.
  destruct (ToIntegerOrInfinity index) as [relativeIndex| |]; [|done..].
  destruct (_ || _); [done|]. apply list_lookup_fmap.
Qed.

Lemma Array_at_elem {A : Type} (index : number) (arr : list A) (x : A) :
  Array_at index arr = Some x -> x ∈ arr.
Proof.
  unfold Array_at.
  destruct (ToIntegerOrInfinity index) as [relativeIndex| |]; [|done..].
  destruct (_ || _); [done|]. apply list_elem_of_lookup_2.
Qed.

(** X17.  [at(0)] is [first()] and [at(-1)] is [last()], and likewise
    [keyAt(0)] is [firstKey()] and [keyAt(-1)] is [lastKey()].  On a cleared
    collection [at] and [keyAt] are [undefined] at every index. *)
Theorem at_ends this :
  One (Collection.at_ (of_Z 0) this) = Collection.first None this
  /\ One (Collection.at_ (of_Z (- 1)) this) = Collection.last None this
  /\ One (Collection.keyAt (of_Z 0) this) = Collection.firstKey None this
  /\ One (Collection.keyAt (of_Z (- 1)) this) = Collection.lastKey None this
  /\ (forall index,
        Collection.at_ index (Map_clear this) = None
        /\ Collection.keyAt index (Map_clear this) = None).
Proof.
  unfold Collection.at_, Collection.keyAt, Collection.first, Collection.last,
    Collection.firstKey, Collection.lastKey.
  rewrite !first_of_none, !last_of_none, !Math_floor_of_Z, !Array_at_of_Z.
  rewrite !last_lookup. simpl (0 <=? _)%Z. cbv iota.
  assert (Hlast : forall (A : Type) (l : list A),
            (if (- Z.of_nat (length l) <=? -1)%Z
             then l !! (length l - Z.to_nat (- -1)) else None)
            = l !! Init.Nat.pred (length l)).
  { intros A l. destruct (Z.leb_spec (- Z.of_nat (length l)) (-1)).
    - f_equal. lia.
    - symmetry. apply lookup_ge_None. lia. }
  rewrite !Hlast. split_and!; [done..|].
  intros index. unfold Map_values, Map_keys. rewrite Map_entries_clear.
  split; unfold Array_at; simpl;
    destruct (ToIntegerOrInfinity (Math_floor index)) as [i| |]; try done;
    by destruct (_ || _).
Qed.

End PositionFacts.


(** ** ensure, again *)

Section EnsureAgainFacts.
Context {K V St : Type} `{EqDecision K}.

(** X20.  After [ensure(key, ...)] the key is in the collection, and a second
    [ensure] on the same key, with whatever generator, returns the same
    value, leaves the collection as it is and does not call its generator. *)
Theorem ensure_twice (key : K)
    (gen gen' : K -> MapData K V -> St -> V * St)
    (this : MapData K V) (st : St) (n : nat) :
  let '(result, this', (st', calls)) :=
    Collection.ensure key (counting gen) this (st, n) in
  Map_has key this' = true
  /\ Map_get key this' = result
  /\ Collection.ensure key (counting gen') this' (st', calls)
     = (result, this', (st', calls)).
Proof.
  unfold Collection.ensure at 1, counting at 1.
  destruct (Map_has key this) eqn:Hhas.
  - unfold Collection.ensure. by rewrite Hhas.
  - destruct (gen key this st) as [v st1].
    assert (Hset : Map_has key (Map_set key v this) = true).
    { rewrite Map_has_set. by rewrite bool_decide_eq_true_2. }
    assert (Hget : Map_get key (Map_set key v this) = Some v).
    { rewrite Map_get_set. by rewrite decide_True. }
    unfold Collection.ensure. by rewrite Hset, Hget.
Qed.
End EnsureAgainFacts.

(** ** random with a count that reaches the size *)

Section ShuffleFacts.
Context {A : Type}.

Lemma lookup_all_positions (items : list A) :
  (fun i => items !! i) <$> seq 0 (length items) = Some <$> items.
Proof.
  apply list_eq. intros i. rewrite !list_lookup_fmap.
  destruct (decide (i < length items)) as [Hi|Hi].
  - rewrite lookup_seq_lt by done. simpl.
    by destruct (lookup_lt_is_Some_2 items i Hi) as [x ->].
  - rewrite lookup_seq_ge by lia. simpl.
    by rewrite (proj2 (lookup_ge_None items i)) by lia.
Qed.

Lemma positions_all (positions : list nat) (len : nat) :
  NoDup positions -> Forall (fun i => i < len) positions ->
  length positions = len -> positions ≡ₚ seq 0 len.
Proof.
  intros Hnd Hall Hlen. apply submseteq_length_Permutation.
  - apply NoDup_submseteq; [done|]. intros i Hi.
    rewrite Forall_forall in Hall. apply elem_of_seq. specialize (Hall i Hi). lia.
  - rewrite length_seq. lia.
Qed.

Lemma random_of_all (items : list A) (n : Z) rs :
  unit_interval rs ->
  (Z.of_nat (length items) <= 2 ^ 53 - 1)%Z ->
  (Z.of_nat (length items) <= n)%Z ->
  exists xs rs',
    Collection.random_of items (Some (of_Z n)) rs = (Many xs, rs')
    /\ xs ≡ₚ Some <$> items.
Proof.
  intros Hrs Hsize Hn.
  destruct (random_of_draws items n rs Hrs Hsize) as (Hpos & Hnone & _).
  destruct (decide (items = [])) as [->|Hitems].
  - exists [], rs. split; [|done]. apply Hnone. by left.
  - assert (0 < length items) by (destruct items; [done|simpl; lia]).
    destruct Hpos as (positions & rs' & Heq & Hlen & Hnd & Hall); [lia|].
    exists ((fun i => items !! i) <$> positions), rs'. split; [done|].
    rewrite <- lookup_all_positions. apply fmap_Permutation.
    apply positions_all; [done..|]. lia.
Qed.
End ShuffleFacts.

(** X19.  With a count that is at least the size, [random] returns all the
    values of the collection, each position once, in some order, and
    [randomKey] all the keys. *)
Theorem random_all_is_shuffle {K V : Type} `{EqDecision K}
    (this : MapData K V) (n : Z) (rs : random_source) :
  unit_interval rs ->
  (Z.of_nat (Map_size this) <= 2 ^ 53 - 1)%Z ->
  (Z.of_nat (Map_size this) <= n)%Z ->
  (exists xs rs',
     Collection.random (Some (of_Z n)) this rs = (Many xs, rs')
     /\ xs ≡ₚ Some <$> Map_values this)
  /\ (exists xs rs',
        Collection.randomKey (Some (of_Z n)) this rs = (Many xs, rs')
        /\ xs ≡ₚ Some <$> Map_keys this).
Proof.
  intros Hrs Hsize Hn. split.
  - unfold Collection.random. rewrite <- (Map_size_values this) in *.
    by apply random_of_all.
  - unfold Collection.randomKey. rewrite <- (Map_size_keys this) in *.
    by apply random_of_all.
Qed.

Lemma halves_unit_interval : unit_interval halves.
Proof. intros i. by split. Qed.

Lemma random_all_is_shuffle_witness :
  exists xs rs',
    Collection.random (Some (of_Z 5)) abc halves = (Many xs, rs')
    /\ xs ≡ₚ [Some 1%Z; Some 2%Z; Some 3%Z].
Proof.
  exact (proj1 (random_all_is_shuffle abc 5 halves halves_unit_interval
                  ltac:(by vm_compute) ltac:(by vm_compute))).
Defined.

Lemma random_without_replacement_witness :
  exists positions rs',
    Collection.random (Some (of_Z 2)) abc halves
    = (Many ((fun i => Map_values abc !! i) <$> positions), rs')
    /\ length positions = 2
    /\ NoDup positions.
Proof.
  destruct (random_without_replacement abc 2 halves halves_unit_interval
              ltac:(by vm_compute)) as [(Hpos & _) _].
  destruct (Hpos ltac:(done)) as (positions & rs' & Heq & Hlen & Hnd & _).
  by exists positions, rs'.
Defined.

(** ** intersect, difference: the values *)

Section SetAlgebraValues.
Context {K V : Type} `{EqDecision K}.
Implicit Types (A B this other : MapData K V).

Lemma filter_all {A : Type} (P : A -> Prop) `{!forall x, Decision (P x)}
    (l : list A) :
  Forall P l -> base.filter P l = l.
Proof.
  induction l as [|x l IH]; intros Hall; [done|].
  apply Forall_cons in Hall as [Hx Hall].
  rewrite filter_cons, decide_True by done. by rewrite IH.
Qed.

Lemma filter_none {A : Type} (P : A -> Prop) `{!forall x, Decision (P x)}
    (l : list A) :
  Forall (fun x => ~ P x) l -> base.filter P l = [].
Proof.
  induction l as [|x l IH]; intros Hall; [done|].
  apply Forall_cons in Hall as [Hx Hall].
  rewrite filter_cons, decide_False by done. by apply IH.
Qed.

Lemma Map_get_None_has key A : Map_has key A = false -> Map_get key A = None.
Proof.
  intros Hhas. destruct (Map_get key A) as [v|] eqn:Hget; [|done].
  assert (Map_has key A = true) by (apply Map_get_has; eauto). congruence.
Qed.

Lemma intersect_get A B key :
  keys_unique B ->
  Map_get key (Collection.intersect A B)
  = if Map_has key A then Map_get key B else None.
Proof.
  intros HB. apply option_eq. intros v.
  rewrite Map_get_elem by apply keys_unique_intersect.
  rewrite intersect_entries, list_elem_of_filter by done. simpl.
  destruct (Map_has key A).
  - rewrite Map_get_elem by done. by split; [intros [_ ?]|].
  - by split; [intros [? _]|].
Qed.

Lemma difference_get A B key :
  keys_unique A -> keys_unique B ->
  Map_get key (Collection.difference A B)
  = if Map_has key A then (if Map_has key B then None else Map_get key A)
    else Map_get key B.
Proof.
  intros HA HB. apply option_eq. intros v.
  rewrite Map_get_elem by apply keys_unique_difference.
  rewrite difference_entries, elem_of_app, !list_elem_of_filter by done. simpl.
  rewrite <- !Map_get_elem by done.
  destruct (Map_has key A) eqn:HhasA; destruct (Map_has key B) eqn:HhasB.
  - by split; [intros [[? _]|[? _]]|].
  - split; [by intros [[? _]|[_ ?]]|]. intros ?. by right.
  - split; [|by left]. intros [[_ ?]|[_ Hget]]; [done|].
    by rewrite Map_get_None_has in Hget.
  - split; [|by left]. intros [[_ ?]|[_ Hget]]; [done|].
    by rewrite Map_get_None_has in Hget.
Qed.

(** X21.  The values in [intersect] and [difference], for collections
    without duplicate keys: [a.intersect(b)] holds, for each key of both,
    the value it has in [b]; [a.difference(b)] holds, for each key of exactly
    one of the two, the value it has there.  No key is in both results;
    [a.intersect(a)] has the entries of [a] and [a.difference(a)] none. *)
Theorem intersect_difference_values A B :
  keys_unique A -> keys_unique B ->
  (forall key,
     Map_get key (Collection.intersect A B)
     = if Map_has key A then Map_get key B else None)
  /\ (forall key,
        Map_get key (Collection.difference A B)
        = if Map_has key A then (if Map_has key B then None else Map_get key A)
          else Map_get key B)
  /\ (forall key,
        Map_has key (Collection.intersect A B)
        && Map_has key (Collection.difference A B) = false)
  /\ Map_entries (Collection.intersect A A) = Map_entries A
  /\ Map_entries (Collection.difference A A) = [].
Proof.
  intros HA HB. split_and!.
  - intros key. by apply intersect_get.
  - intros key. by apply difference_get.
  - intros key. rewrite intersect_has, difference_has by done.
    by destruct (Map_has key A), (Map_has key B).
  - rewrite intersect_entries by done. apply filter_all.
    apply Forall_forall. intros [k v] He. simpl.
    apply Map_has_elem, list_elem_of_fmap. by exists (k, v).
  - rewrite difference_entries by done.
    assert (Hnone : base.filter (fun e => Map_has e.1 A = false) (Map_entries A)
                    = []).
    { apply filter_none. apply Forall_forall. intros [k v] He. simpl.
      assert (Hhas : Map_has k A = true).
      { apply Map_has_elem, list_elem_of_fmap. by exists (k, v). }
      by rewrite Hhas. }
    by rewrite Hnone.
Qed.
End SetAlgebraValues.

Lemma intersect_difference_values_witness :
  Map_get "a"%string (Collection.intersect abc cda) = Some 10%Z
  /\ Map_get "b"%string (Collection.difference abc cda) = Some 2%Z
  /\ Map_get "a"%string (Collection.difference abc cda) = None.
Proof.
  pose proof (intersect_difference_values abc cda
                ltac:(keys_unique_by_computation)
                ltac:(keys_unique_by_computation)) as (Hi & Hd & _).
  rewrite Hi, !Hd. by vm_compute.
Defined.

(** ** hasAll, hasAny *)

Section HasFacts.
Context {K V : Type} `{EqDecision K}.
Implicit Types (this other : MapData K V) (keys : list K).

Lemma hasAll_true keys this :
  Collection.hasAll keys this = true
  <-> forall k, k ∈ keys -> k ∈ Map_keys this.
Proof.
  unfold Collection.hasAll. rewrite forallb_forall. split.
  - intros Hall k Hk. by apply Map_has_elem, Hall, list_elem_of_In.
  - intros Hall k Hk. by apply Map_has_elem, Hall, list_elem_of_In.
Qed.

Lemma hasAny_true keys this :
  Collection.hasAny keys this = true
  <-> exists k, k ∈ keys /\ k ∈ Map_keys this.
Proof.
  unfold Collection.hasAny. rewrite existsb_exists. split.
  - intros (k & Hk & Hhas). exists k.
    split; [by apply list_elem_of_In|by apply Map_has_elem].
  - intros (k & Hk & Hhas). exists k.
    split; [by apply list_elem_of_In|by apply Map_has_elem].
Qed.

Lemma hasAll_filter_length this (es : list (K * V)) :
  Collection.hasAll (es.*1) this
  = (length (base.filter (fun e => Map_has e.1 this = true) es) =? length es).
Proof.
  unfold Collection.hasAll.
  induction es as [|e es IH]; [done|].
  rewrite fmap_cons, filter_cons. cbn [forallb].
  destruct (Map_has e.1 this) eqn:Hhas.
  - rewrite decide_True by done. simpl. apply IH.
  - rewrite decide_False by done. simpl. symmetry. apply Nat.eqb_neq.
    pose proof (length_filter (fun e => Map_has e.1 this = true) es). lia.
Qed.

Lemma hasAny_filter_length this (es : list (K * V)) :
  Collection.hasAny (es.*1) this
  = negb (length (base.filter (fun e => Map_has e.1 this = true) es) =? 0).
Proof.
  unfold Collection.hasAny.
  induction es as [|e es IH]; [done|].
  rewrite fmap_cons, filter_cons. cbn [existsb].
  destruct (Map_has e.1 this) eqn:Hhas.
  - by rewrite decide_True by done.
  - rewrite decide_False by done. simpl. apply IH.
Qed.

(** X22.  [hasAll] is true exactly when every given key is a key of the
    collection, and [hasAny] when at least one is.  On the keys of another
    collection: [hasAny] says whether the intersection with it has an entry,
    and [hasAll] whether the intersection has all its entries. *)
Theorem hasAll_hasAny_keys keys this other :
  keys_unique other ->
  (Collection.hasAll keys this = true
   <-> forall k, k ∈ keys -> k ∈ Map_keys this)
  /\ (Collection.hasAny keys this = true
      <-> exists k, k ∈ keys /\ k ∈ Map_keys this)
  /\ Collection.hasAny (Map_keys other) this
     = negb (Map_size (Collection.intersect this other) =? 0)
  /\ Collection.hasAll (Map_keys other) this
     = (Map_size (Collection.intersect this other) =? Map_size other).
Proof.
  intros Hnd. split_and!.
  - apply hasAll_true.
  - apply hasAny_true.
  - unfold Map_size, Map_keys. rewrite intersect_entries by done.
    apply hasAny_filter_length.
  - unfold Map_size, Map_keys. rewrite intersect_entries by done.
    apply hasAll_filter_length.
Qed.
End HasFacts.

Lemma hasAll_hasAny_keys_witness :
  Collection.hasAny (Map_keys cda) abc = true
  /\ Collection.hasAll (Map_keys cda) abc = false
  /\ Map_size (Collection.intersect abc cda) = 2.
Proof.
  pose proof (hasAll_hasAny_keys [] abc cda ltac:(keys_unique_by_computation))
    as (_ & _ & Hany & Hall).
  rewrite Hany, Hall. by vm_compute.
Defined.

(** ** The invariant of a map *)

Section InvariantFacts.
Context {K V : Type} `{EqDecision K}.
Implicit Types (M this other : MapData K V).

Lemma Map_delete_keys_sublist key M :
  Map_keys (Map_delete key M).2 `sublist_of` Map_keys M.
Proof.
  unfold Map_keys. induction M as [|[[k v]|] M IH]; [done| |].
  - cbn [Map_delete]. destruct (decide (k = key)).
    + cbn [snd]. rewrite Map_entries_cons_None, Map_entries_cons_Some, fmap_cons.
      by apply sublist_cons.
    + destruct (Map_delete key M) as [b M1]. cbn [snd] in *.
      rewrite !Map_entries_cons_Some, !fmap_cons. by apply sublist_skip.
  - cbn [Map_delete]. destruct (Map_delete key M) as [b M1]. cbn [snd] in *.
    by rewrite !Map_entries_cons_None.
Qed.

Lemma keys_unique_delete key M :
  keys_unique M -> keys_unique (Map_delete key M).2.
Proof.
  intros Hnd. eapply sublist_NoDup; [done|apply Map_delete_keys_sublist].
Qed.

Lemma keys_unique_clear M : keys_unique (Map_clear M).
Proof. unfold keys_unique, Map_keys. rewrite Map_entries_clear. constructor. Qed.

Lemma keys_unique_sweep_loop {St : Type}
    (fn : V -> K -> MapData K V -> St -> bool * St) fuel index M (st : St) :
  keys_unique M -> keys_unique (Collection.sweep_loop fn fuel index M st).1.
Proof.
  revert index M st. induction fuel as [|fuel IH]; intros index M st Hnd; [done|].
  cbn [Collection.sweep_loop].
  destruct (M !! index) as [[[key val]|]|]; [|by apply IH|done].
  destruct (fn val key M st) as [[] st']; apply IH; [|done].
  by apply keys_unique_delete.
Qed.

(** X23.  The methods that change a collection keep its keys distinct: after
    [set], [delete], [clear], [ensure], [sweep], [reverse] and [sort] on a
    collection without duplicate keys, no key is in two entries. *)
Theorem keys_unique_kept this :
  keys_unique this ->
  (forall key value, keys_unique (Map_set key value this))
  /\ (forall key, keys_unique (Map_delete key this).2)
  /\ keys_unique (Map_clear this)
  /\ (forall (St : Type) key (gen : K -> MapData K V -> St -> V * St) st,
        keys_unique (Collection.ensure key gen this st).1.2)
  /\ (forall (St : Type) (fn : V -> K -> MapData K V -> St -> bool * St) st,
        keys_unique (Collection.sweep fn this st).1.2)
  /\ keys_unique (Collection.reverse this)
  /\ (forall cmp, keys_unique (Collection.sort cmp this)).
Proof.
  intros Hnd. split_and!.
  - intros key value. by apply keys_unique_set.
  - intros key. by apply keys_unique_delete.
  - apply keys_unique_clear.
  - intros St key gen st. unfold Collection.ensure.
    destruct (Map_has key this); [done|].
    destruct (gen key this st) as [v st']. by apply keys_unique_set.
  - intros St fn st. unfold Collection.sweep.
    pose proof (keys_unique_sweep_loop fn (length this) 0 this st Hnd) as Hloop.
    by destruct (Collection.sweep_loop fn (length this) 0 this st).
  - apply keys_unique_reverse.
  - intros cmp. apply keys_unique_sort.
Qed.

(** X24.  The collections that the methods build have distinct keys,
    whatever the receiver: the results of the constructor, [clone],
    [filter], [partition], [mapValues], [concat], [intersect], [difference]
    and [sorted]. *)
Theorem keys_unique_built this other :
  (forall entries : list (K * V), keys_unique (Map_new entries))
  /\ keys_unique (Collection.clone this)
  /\ (forall (St : Type) (fn : V -> K -> MapData K V -> St -> bool * St) st,
        keys_unique (Collection.filter fn this st).1
        /\ keys_unique (Collection.partition fn this st).1.1
        /\ keys_unique (Collection.partition fn this st).1.2)
  /\ (forall (St T : Type) (fn : V -> K -> MapData K V -> St -> T * St) st,
        keys_unique (Collection.mapValues fn this st).1)
  /\ (forall collections, keys_unique (Collection.concat collections this))
  /\ keys_unique (Collection.intersect this other)
  /\ keys_unique (Collection.difference this other)
  /\ (forall cmp, keys_unique (Collection.sorted cmp this)).
Proof.
  split_and!.
  - apply keys_unique_new.
  - apply keys_unique_new.
  - intros St fn st. unfold Collection.filter, Collection.partition.
    rewrite filter_fold, partition_fold.
    destruct (snapshot_calls fn this (Map_entries this) st)
      as [[accepted rejected] st_end]. simpl.
    split_and!; apply keys_unique_fold_set, (keys_unique_new []).
  - intros St T fn st. unfold Collection.mapValues. rewrite mapValues_fold.
    simpl. apply keys_unique_fold_set, (keys_unique_new []).
  - intros collections. apply concat_compact.
  - apply keys_unique_intersect.
  - apply keys_unique_difference.
  - intros cmp. apply keys_unique_sort.
Qed.
End InvariantFacts.

Lemma keys_unique_kept_witness :
  keys_unique (Collection.sweep is_two (Map_set "d"%string 4%Z abc) tt).1.2.
Proof.
  pose proof (keys_unique_kept abc ltac:(keys_unique_by_computation))
    as (Hset & _).
  pose proof (keys_unique_kept _ (Hset "d"%string 4%Z))
    as (_ & _ & _ & _ & Hsweep & _).
  apply Hsweep.
Defined.

(** ** The collection with cached arrays: first, last, random, sort *)

Section CachedEndsFacts.
Context {K V A : Type} `{EqDecision K}.
Context (items : MapData K V -> list A).
Context (arrayOf : @Cached.collection K V -> list A * @Cached.collection K V).
Import CachedTrace.

(** What is assumed of [arrayOf]: on right caches it returns the current
    items, and leaves the entries alone and the caches right. *)
Hypothesis arrayOf_current :
  forall this, caches_ok this ->
    (arrayOf this).1 = items (Cached.data this)
    /\ Cached.data (arrayOf this).2 = Cached.data this
    /\ caches_ok (arrayOf this).2.

Lemma cached_first_of_eq amount this :
  Cached.first_of items arrayOf amount this
  = Cached.first_body items
      (fun a this => Cached.last_of items arrayOf (Some a) this) amount this.
Proof.
  unfold Cached.first_of, Cached.last_of, Cached.first_body.
  destruct amount as [amount|]; [|done].
  destruct (num_lt amount (of_Z 0)) eqn:Hneg; [|done].
  unfold Cached.last_body. destruct (arrayOf this) as [arr this1].
  by rewrite (num_lt_0_mul_m1 amount Hneg).
Qed.

Lemma cached_first_of_agree amount this :
  caches_ok this ->
  (Cached.first_of items arrayOf amount this).1
  = Collection.first_of (items (Cached.data this))
      (Map_size (Cached.data this)) amount
  /\ Cached.data (Cached.first_of items arrayOf amount this).2 = Cached.data this
  /\ caches_ok (Cached.first_of items arrayOf amount this).2.
Proof.
  intros Hok. unfold Cached.first_of, Collection.first_of,
    Cached.first_body, Collection.first_body.
  destruct amount as [amount|]; [|done].
  destruct (num_lt amount (of_Z 0)) eqn:Hneg; [|done].
  unfold Cached.last_body, Collection.last_body.
  destruct (arrayOf_current this Hok) as (Harr & Hdata & Hok1).
  destruct (arrayOf this) as [arr this1]. simpl in Harr, Hdata, Hok1.
  rewrite (num_lt_0_mul_m1 amount Hneg).
  destruct (num_falsy _); simpl; by rewrite ?Harr.
Qed.

Lemma cached_last_of_agree amount this :
  caches_ok this ->
  (Cached.last_of items arrayOf amount this).1
  = Collection.last_of (items (Cached.data this))
      (Map_size (Cached.data this)) amount
  /\ Cached.data (Cached.last_of items arrayOf amount this).2 = Cached.data this
  /\ caches_ok (Cached.last_of items arrayOf amount this).2.
Proof.
  intros Hok. unfold Cached.last_of, Collection.last_of,
    Cached.last_body, Collection.last_body.
  destruct (arrayOf_current this Hok) as (Harr & Hdata & Hok1).
  destruct (arrayOf this) as [arr this1]. simpl in Harr, Hdata, Hok1.
  destruct amount as [amount|]; [|simpl; by rewrite Harr].
  destruct (num_lt amount (of_Z 0)) eqn:Hneg.
  - destruct (cached_first_of_agree (Some (num_mul amount (of_Z (-1)))) this1 Hok1)
      as (Hres & Hdata1 & Hok2).
    rewrite Hdata in Hres, Hdata1. done.
  - destruct (num_falsy _); simpl; by rewrite ?Harr.
Qed.
End CachedEndsFacts.

Section CachedAgreeFacts.
Context {K V : Type} `{EqDecision K}.
Implicit Types (this : @Cached.collection K V).
Import CachedTrace.

Lemma array_keeps this :
  caches_ok this ->
  (Cached.array this).1 = Map_values (Cached.data this)
  /\ Cached.data (Cached.array this).2 = Cached.data this
  /\ caches_ok (Cached.array this).2.
Proof.
  intros Hok. split_and!.
  - by apply array_current.
  - unfold Cached.array. destruct (Cached._array this); [|done].
    by destruct (negb _).
  - apply (caches_ok_step this CallArray Hok).
Qed.

Lemma keyArray_keeps this :
  caches_ok this ->
  (Cached.keyArray this).1 = Map_keys (Cached.data this)
  /\ Cached.data (Cached.keyArray this).2 = Cached.data this
  /\ caches_ok (Cached.keyArray this).2.
Proof.
  intros Hok. split_and!.
  - by apply keyArray_current.
  - unfold Cached.keyArray. destruct (Cached._keyArray this); [|done].
    by destruct (negb _).
  - apply (caches_ok_step this CallKeyArray Hok).
Qed.

(** X25.  With caches that are right, [first], [last], [firstKey] and
    [lastKey] of the class with cached arrays return what the ones of the
    class without caches return on the same entries, for every amount; they
    leave the entries as they are and the caches right. *)
Theorem cached_ends_agree this (amount : option number) :
  caches_ok this ->
  ((Cached.first amount this).1 = Collection.first amount (Cached.data this)
   /\ (Cached.last amount this).1 = Collection.last amount (Cached.data this)
   /\ (Cached.firstKey amount this).1
      = Collection.firstKey amount (Cached.data this)
   /\ (Cached.lastKey amount this).1
      = Collection.lastKey amount (Cached.data this))
  /\ Forall (fun this' => Cached.data this' = Cached.data this /\ caches_ok this')
       [(Cached.first amount this).2; (Cached.last amount this).2;
        (Cached.firstKey amount this).2; (Cached.lastKey amount this).2].
Proof.
  intros Hok.
  pose proof (cached_first_of_agree Map_values Cached.array array_keeps
                amount this Hok) as (Hf1 & Hf2 & Hf3).
  pose proof (cached_last_of_agree Map_values Cached.array array_keeps
                amount this Hok) as (Hl1 & Hl2 & Hl3).
  pose proof (cached_first_of_agree Map_keys Cached.keyArray keyArray_keeps
                amount this Hok) as (Hfk1 & Hfk2 & Hfk3).
  pose proof (cached_last_of_agree Map_keys Cached.keyArray keyArray_keeps
                amount this Hok) as (Hlk1 & Hlk2 & Hlk3).
  unfold Cached.first, Cached.last, Cached.firstKey, Cached.lastKey,
    Collection.first, Collection.last, Collection.firstKey, Collection.lastKey.
  split; [done|].
  repeat (apply Forall_cons; split; [done|]). apply Forall_nil_2.
Qed.

Lemma Array_slice_0 {A : Type} (arr : list A) : Array_slice (of_Z 0) arr = arr.
Proof.
  unfold Array_slice, relative_start. rewrite ToIntegerOrInfinity_of_Z.
  simpl (0 <? 0)%Z. cbv iota.
  by replace (Z.to_nat (Z.min 0 (Z.of_nat (length arr)))) with 0 by lia.
Qed.

Lemma cached_random_from_within {A : Type} (arr : list A) (n : Z) rs :
  (n <= Z.of_nat (length arr))%Z ->
  Cached.random_from arr (Some (of_Z n)) rs
  = Collection.random_of arr (Some (of_Z n)) rs
  /\ Cached.random_from arr None rs = Collection.random_of arr None rs.
Proof.
  intros Hn. split; [|done]. unfold Cached.random_from, Collection.random_of.
  destruct (_ || _); [done|].
  rewrite Array_slice_0. unfold of_nat. rewrite Math_min_of_Z.
  by replace (Z.min n (Z.of_nat (length arr))) with n by lia.
Qed.

(** X26.  With caches that are right and a count that is not past the size,
    [random] and [randomKey] of the class with cached arrays return, on the
    same random numbers, what the ones of the class without caches return,
    and leave the entries as they are; likewise without a count. *)
Theorem cached_random_within_size this (n : Z) (rs : random_source) :
  caches_ok this ->
  (n <= Z.of_nat (Map_size (Cached.data this)))%Z ->
  (let '(r, this', rs') := Cached.random (Some (of_Z n)) this rs in
   (r, rs') = Collection.random (Some (of_Z n)) (Cached.data this) rs
   /\ Cached.data this' = Cached.data this)
  /\ (let '(r, this', rs') := Cached.randomKey (Some (of_Z n)) this rs in
      (r, rs') = Collection.randomKey (Some (of_Z n)) (Cached.data this) rs
      /\ Cached.data this' = Cached.data this)
  /\ (let '(r, this', rs') := Cached.random None this rs in
      (r, rs') = Collection.random None (Cached.data this) rs)
  /\ (let '(r, this', rs') := Cached.randomKey None this rs in
      (r, rs') = Collection.randomKey None (Cached.data this) rs).
Proof.
  intros Hok Hn.
  unfold Cached.random, Cached.randomKey, Collection.random,
    Collection.randomKey.
  destruct (array_keeps this Hok) as (Harr & Hdata & _).
  destruct (keyArray_keeps this Hok) as (Hkarr & Hkdata & _).
  destruct (Cached.array this) as [arr this1].
  destruct (Cached.keyArray this) as [karr this2].
  simpl in Harr, Hdata, Hkarr, Hkdata. subst arr karr.
  destruct (cached_random_from_within (Map_values (Cached.data this)) n rs)
    as [Hv Hv0]; [by rewrite Map_size_values|].
  destruct (cached_random_from_within (Map_keys (Cached.data this)) n rs)
    as [Hk Hk0]; [by rewrite Map_size_keys|].
  rewrite Hv, Hk, Hv0, Hk0.
  split_and!.
  - by destruct (Collection.random_of (Map_values _) (Some _) rs).
  - by destruct (Collection.random_of (Map_keys _) (Some _) rs).
  - by destruct (Collection.random_of (Map_values _) None rs).
  - by destruct (Collection.random_of (Map_keys _) None rs).
Qed.

Lemma cached_fold_set (es : list (K * V)) this :
  Cached.data (fold_left (fun this e => Cached.set e.1 e.2 this) es this)
  = fold_left (fun M e => Map_set e.1 e.2 M) es (Cached.data this)
  /\ (caches_ok this ->
      caches_ok (fold_left (fun this e => Cached.set e.1 e.2 this) es this))
  /\ (es <> [] ->
      Cached._array (fold_left (fun this e => Cached.set e.1 e.2 this) es this)
      = None
      /\ Cached._keyArray
           (fold_left (fun this e => Cached.set e.1 e.2 this) es this)
         = None).
Proof.
  revert this. induction es as [|e es IH]; intros this; [done|].
  cbn [fold_left]. destruct (IH (Cached.set e.1 e.2 this)) as (Hdata & Hok & Hnone).
  split_and!.
  - by rewrite Hdata.
  - intros _. by apply Hok.
  - intros _. destruct es as [|e' es]; [done|]. by apply Hnone.
Qed.

(** X27.  [sort] of the class with cached arrays leaves the entries that
    [sort] of the class without caches leaves; it keeps right caches right,
    so [array()] and [keyArray()] after it return the values and the keys in
    the new order. *)
Theorem cached_sort_current cmp this :
  caches_ok this ->
  let this' := Cached.sort cmp this in
  Cached.data this' = Collection.sort cmp (Cached.data this)
  /\ caches_ok this'
  /\ (Cached.array this').1 = Map_values (Collection.sort cmp (Cached.data this))
  /\ (Cached.keyArray this').1
     = Map_keys (Collection.sort cmp (Cached.data this)).
Proof.
  intros Hok this'.
  assert (Hdata : Cached.data this' = Collection.sort cmp (Cached.data this)).
  { subst this'. unfold Cached.sort, Collection.sort.
    by rewrite (proj1 (cached_fold_set _ _)). }
  assert (Hok' : caches_ok this').
  { subst this'. unfold Cached.sort. apply cached_fold_set.
    apply (caches_ok_step this CallClear Hok). }
  split_and!; [done..| |].
  - by rewrite array_current, Hdata.
  - by rewrite keyArray_current, Hdata.
Qed.
End CachedAgreeFacts.

Lemma cached_ends_agree_witness :
  (Cached.last (Some (of_Z 2)) (Cached.new abc_entries)).1
  = Many [Some 2%Z; Some 3%Z]
  /\ (Cached.firstKey (Some (of_Z (- 1))) (Cached.new abc_entries)).1
     = Many [Some "c"%string].
Proof.
  pose proof (cached_ends_agree (Cached.new abc_entries) (Some (of_Z 2))
                (caches_ok_new abc_entries)) as [(_ & Hlast & _) _].
  pose proof (cached_ends_agree (Cached.new abc_entries) (Some (of_Z (- 1)))
                (caches_ok_new abc_entries)) as [(_ & _ & HfirstKey & _) _].
  rewrite Hlast, HfirstKey. by vm_compute.
Defined.

Lemma cached_random_within_size_witness :
  (Cached.random (Some (of_Z 2)) (Cached.new abc_entries) halves).1.1
  = (Collection.random (Some (of_Z 2)) abc halves).1.
Proof.
  assert (Hn : (2 <= Z.of_nat (Map_size (Cached.data (Cached.new abc_entries))))%Z)
    by (by vm_compute).
  pose proof (cached_random_within_size (Cached.new abc_entries) 2 halves
                (caches_ok_new abc_entries) Hn)
    as (Hrandom & _).
  destruct (Cached.random (Some (of_Z 2)) (Cached.new abc_entries) halves)
    as [[r this'] rs'].
  destruct Hrandom as [Hr _]. change (Cached.data (Cached.new abc_entries))
    with abc in Hr. by rewrite <- Hr.
Defined.

Lemma cached_sort_current_witness :
  (Cached.array
     (Cached.sort ascending
        (Cached.array (Cached.new [("a", 3%Z); ("b", 2%Z); ("c", 1%Z)]%string)).2)).1
  = [1%Z; 2%Z; 3%Z].
Proof.
  pose proof (cached_sort_current ascending
                (Cached.array
                   (Cached.new [("a", 3%Z); ("b", 2%Z); ("c", 1%Z)]%string)).2
                (caches_ok_step _ CachedTrace.CallArray (caches_ok_new _)))
    as (_ & _ & Harray & _).
  rewrite Harray. by vm_compute.
Defined.
